(** * DBoW2 bag-of-words scoring: a shallow embedding of [ScoringObject.cpp]

    The six [score] functions of [src/ScoringObject.cpp] are embedded once,
    generically over the arithmetic of [WordValue] (the interfaces
    [WordValueOps] and [WordValueLog]), and then read at two instances:

    - [Binary64]: IEEE-754 double precision, through the Standard Library's
      executable specification [SpecFloat]; this is what the C++ [double]
      computes.  [log] is a libm function and stays a parameter there;
    - [Exact]: the real numbers, the exact arithmetic in which the algebraic
      properties of the scores are stated.

    A [BowVector] is a [std::map<WordId, WordValue>]; it is embedded as the
    list of its entries in iteration order.  An iterator is embedded as the
    list of the entries from its position to the end ([end()] is [[]]), and
    [lower_bound] and [find] search the whole vector, as in the source.

    The [while] loops are run with fuel: a score function returns [Some] of
    its result, or [None] if its loop does not exit within
    [length v1 + length v2] iterations.  Section [Termination] shows that
    for vectors with ascending keys the loops do exit. *)

From Stdlib Require Import List Bool NArith ZArith Lia.
From Stdlib Require Import Sorted Permutation.
From Stdlib Require Import Reals Lra.
From Stdlib Require Import SpecFloat.
Import ListNotations.

Set Implicit Arguments.

(** ** The arithmetic of [WordValue] *)

(** The operations of [double] that the scoring functions use. *)
Class WordValueOps (T : Type) : Type := {
  wv_zero : T;                 (* the literals 0, 0.0 *)
  wv_two : T;                  (* the literals 2.0, 2. *)
  wv_DBL_EPSILON : T;          (* DBL_EPSILON of <cfloat> *)
  wv_add : T -> T -> T;
  wv_sub : T -> T -> T;
  wv_mul : T -> T -> T;
  wv_div : T -> T -> T;
  wv_neg : T -> T;             (* unary minus *)
  wv_fabs : T -> T;
  wv_sqrt : T -> T;
  wv_ne : T -> T -> bool       (* operator != *)
}.

(** [log] of <cmath>, which only the Kullback-Leibler score calls.  It is
    kept apart from the IEEE-754 operations: the standard does not fix its
    rounding. *)
Class WordValueLog (T : Type) : Type := {
  wv_log : T -> T
}.

Declare Scope wv_scope.
Delimit Scope wv_scope with wv.
Infix "+" := wv_add : wv_scope.
Infix "-" := wv_sub : wv_scope.
Infix "*" := wv_mul : wv_scope.
Infix "/" := wv_div : wv_scope.
Notation "- x" := (wv_neg x) : wv_scope.
Infix "!=" := wv_ne (at level 70, no associativity) : wv_scope.

(** ** Sparse vectors and iterators *)

Definition WordId : Type := N.

(** Modelled from the spec: the type [BowVector] is declared in
    [BowVector.h], not in [ScoringObject.cpp]; by the spec (and by its use
    here) it is an ordered mapping from word identifier to weight, iterated
    in ascending key order.  The entries are listed in iteration order. *)
Definition BowVector (T : Type) : Type := list (WordId * T).

(** A position in a vector: the entries from that position on. *)
Definition iterator (T : Type) : Type := list (WordId * T).

Definition keys {T} (v : BowVector T) : list WordId := map fst v.

(** The Sparse Vector invariant on keys: strictly ascending, hence unique. *)
Definition ascending {T} (v : BowVector T) : Prop :=
  StronglySorted N.lt (keys v).

Section Iterators.
Context {T : Type}.

(** [it == v.end()] *)
Definition is_end (it : iterator T) : bool :=
  match it with [] => true | _ :: _ => false end.

(** [v.lower_bound(k)]: the first position whose key is not less than [k]. *)
Fixpoint lower_bound (v : BowVector T) (k : WordId) : iterator T :=
  match v with
  | [] => []
  | (k', x) :: t => if (k' <? k)%N then lower_bound t k else v
  end.

(** [v.find(k)]: the position of key [k], or [end()]. *)
Fixpoint find (v : BowVector T) (k : WordId) : iterator T :=
  match v with
  | [] => []
  | (k', x) :: t => if (k' =? k)%N then v else find t k
  end.

(** Modelled from the spec: insertion of an entry into a Sparse Vector
    (the vector-construction facility is outside [ScoringObject.cpp]);
    the entry goes to its place in key order, and an existing key is kept
    as it is, as [std::map::insert] does. *)
Fixpoint insert (k : WordId) (x : T) (v : BowVector T) : BowVector T :=
  match v with
  | [] => [(k, x)]
  | (k', y) :: t =>
      if (k <? k')%N then (k, x) :: v
      else if (k =? k')%N then v
      else (k', y) :: insert k x t
  end.
End Iterators.

(** ** Loops *)

(** [while (cond) body], run for at most [fuel] tests of the condition. *)
Fixpoint while_loop {S : Type} (fuel : nat) (cond : S -> bool)
    (body : S -> S) (s : S) : option S :=
  match fuel with
  | O => None
  | Datatypes.S n => if cond s then while_loop n cond body (body s) else Some s
  end.

(** The local variables of the merge loops. *)
Record merge_state (T : Type) : Type := MergeState {
  v1_it : iterator T;
  v2_it : iterator T;
  score : T
}.

Section Scoring.
Context {T : Type} {ops : WordValueOps T} {lg : WordValueLog T}.
Local Open Scope wv_scope.

(** [GeneralScoring::LOG_EPS = log(DBL_EPSILON)] (line 18) *)
Definition LOG_EPS : T := wv_log wv_DBL_EPSILON.

(** [v1_it != v1_end && v2_it != v2_end] *)
Definition merge_cond (s : merge_state T) : bool :=
  negb (is_end (v1_it s)) && negb (is_end (v2_it s)).

(** Every merge loop is given this many tests of its condition. *)
Definition merge_fuel (v1 v2 : BowVector T) : nat :=
  Datatypes.S (length v1 + length v2).

Definition merge_init (v1 v2 : BowVector T) : merge_state T :=
  MergeState v1 v2 wv_zero.

(** *** L1 (lines 21-45) *)

Definition L1_term (vi wi : T) : T :=
  wv_fabs (vi - wi) - wv_fabs vi - wv_fabs wi.

Definition L1_body (s : merge_state T) : merge_state T :=
  match v1_it s, v2_it s with
  | (k1, vi) :: t1, (k2, wi) :: t2 =>
      if (k1 =? k2)%N then MergeState t1 t2 (score s + L1_term vi wi)
      else if (k1 <? k2)%N then MergeState t1 (v2_it s) (score s)
      else MergeState (v1_it s) t2 (score s)
  | _, _ => s
  end.

Definition L1Scoring_score (v1 v2 : BowVector T) : option T :=
  match while_loop (merge_fuel v1 v2) merge_cond L1_body (merge_init v1 v2) with
  | Some s => Some (- score s / wv_two)
  | None => None
  end.

(** *** L2 (lines 50-77) *)

(** The lambda of the [for_each]: one entry [p1] of [v1] is looked up in
    [v2], and its term is pushed onto [partialScores]. *)
Definition L2_visit (v2 : BowVector T) (partialScores : list T)
    (p1 : WordId * T) : list T :=
  match find v2 (fst p1) with
  | (_, it_second) :: _ =>
      if (snd p1 != wv_zero) || (it_second != wv_zero)
      then partialScores ++ [L1_term (snd p1) it_second]
      else partialScores
  | [] => partialScores
  end.

(** The [for_each] runs under [std::execution::par]: the order in which the
    entries of [v1] are visited is not fixed.  [order] is the order in
    which they are visited; the visits are taken one after the other (the
    concurrent [push_back]s on [partialScores] are not synchronised in the
    source, and their interleaving is not part of this embedding). *)
Definition L2Scoring_score_in_order (order : list (WordId * T))
    (v2 : BowVector T) : T :=
  let partialScores := fold_left (L2_visit v2) order [] in
  let score := fold_left wv_add partialScores wv_zero in
  - score / wv_two.

(** The visit in iteration order. *)
Definition L2Scoring_score (v1 v2 : BowVector T) : T :=
  L2Scoring_score_in_order v1 v2.

(** *** Chi-square (lines 83-128) *)

Definition ChiSquare_upd (score vi wi : T) : T :=
  if (vi + wi) != wv_zero then score + vi * wi / (vi + wi) else score.

Definition ChiSquare_body (v1 v2 : BowVector T) (s : merge_state T) : merge_state T :=
  match v1_it s, v2_it s with
  | (k1, vi) :: t1, (k2, wi) :: t2 =>
      if (k1 =? k2)%N then MergeState t1 t2 (ChiSquare_upd (score s) vi wi)
      else if (k1 <? k2)%N then MergeState (lower_bound v1 k2) (v2_it s) (score s)
      else MergeState (v1_it s) (lower_bound v2 k1) (score s)
  | _, _ => s
  end.

Definition ChiSquareScoring_score (v1 v2 : BowVector T) : option T :=
  match while_loop (merge_fuel v1 v2) merge_cond (ChiSquare_body v1 v2)
          (merge_init v1 v2) with
  | Some s => Some (wv_two * score s)
  | None => None
  end.

(** *** Kullback-Leibler (lines 133-179) *)

Definition KL_upd (score vi wi : T) : T :=
  if (vi != wv_zero) && (wi != wv_zero) then score + vi * wv_log (vi / wi)
  else score.

Definition KL_body (v2 : BowVector T) (s : merge_state T) : merge_state T :=
  match v1_it s, v2_it s with
  | (k1, vi) :: t1, (k2, wi) :: t2 =>
      if (k1 =? k2)%N then MergeState t1 t2 (KL_upd (score s) vi wi)
      else if (k1 <? k2)%N then
        MergeState t1 (v2_it s) (score s + vi * (wv_log vi - LOG_EPS))
      else MergeState (v1_it s) (lower_bound v2 k1) (score s)
  | _, _ => s
  end.

(** The [for] loop of lines 174-176 over the rest of [v1]. *)
Fixpoint KL_rest (it : iterator T) (score : T) : T :=
  match it with
  | [] => score
  | (_, vi) :: t =>
      KL_rest t (if vi != wv_zero then score + vi * (wv_log vi - LOG_EPS)
                 else score)
  end.

Definition KLScoring_score (v1 v2 : BowVector T) : option T :=
  match while_loop (merge_fuel v1 v2) merge_cond (KL_body v2)
          (merge_init v1 v2) with
  | Some s => Some (KL_rest (v1_it s) (score s))
  | None => None
  end.

(** *** Bhattacharyya (lines 184-224) *)

Definition Bhattacharyya_upd (score vi wi : T) : T :=
  score + wv_sqrt (vi * wi).

Definition Bhattacharyya_body (v1 v2 : BowVector T) (s : merge_state T) : merge_state T :=
  match v1_it s, v2_it s with
  | (k1, vi) :: t1, (k2, wi) :: t2 =>
      if (k1 =? k2)%N then MergeState t1 t2 (Bhattacharyya_upd (score s) vi wi)
      else if (k1 <? k2)%N then MergeState (lower_bound v1 k2) (v2_it s) (score s)
      else MergeState (v1_it s) (lower_bound v2 k1) (score s)
  | _, _ => s
  end.

Definition BhattacharyyaScoring_score (v1 v2 : BowVector T) : option T :=
  match while_loop (merge_fuel v1 v2) merge_cond (Bhattacharyya_body v1 v2)
          (merge_init v1 v2) with
  | Some s => Some (score s)
  | None => None
  end.

(** *** Dot product (lines 229-269) *)

Definition DotProduct_upd (score vi wi : T) : T := score + vi * wi.

Definition DotProduct_body (v1 v2 : BowVector T) (s : merge_state T) : merge_state T :=
  match v1_it s, v2_it s with
  | (k1, vi) :: t1, (k2, wi) :: t2 =>
      if (k1 =? k2)%N then MergeState t1 t2 (DotProduct_upd (score s) vi wi)
      else if (k1 <? k2)%N then MergeState (lower_bound v1 k2) (v2_it s) (score s)
      else MergeState (v1_it s) (lower_bound v2 k1) (score s)
  | _, _ => s
  end.

Definition DotProductScoring_score (v1 v2 : BowVector T) : option T :=
  match while_loop (merge_fuel v1 v2) merge_cond (DotProduct_body v1 v2)
          (merge_init v1 v2) with
  | Some s => Some (score s)
  | None => None
  end.

(** *** The merge join, read structurally *)

(** The shape shared by the loops of Chi-square, Bhattacharyya and dot
    product: they differ in the update of [score] at a common key. *)
Definition lb_body (upd : T -> T -> T -> T) (v1 v2 : BowVector T)
    (s : merge_state T) : merge_state T :=
  match v1_it s, v2_it s with
  | (k1, vi) :: t1, (k2, wi) :: t2 =>
      if (k1 =? k2)%N then MergeState t1 t2 (upd (score s) vi wi)
      else if (k1 <? k2)%N then MergeState (lower_bound v1 k2) (v2_it s) (score s)
      else MergeState (v1_it s) (lower_bound v2 k1) (score s)
  | _, _ => s
  end.

(** The pairs of weights at the keys that two iterators have in common, in
    ascending key order. *)
Fixpoint matched (c1 : iterator T) : iterator T -> list (T * T) :=
  fix inner (c2 : iterator T) : list (T * T) :=
    match c1, c2 with
    | (k1, vi) :: t1, (k2, wi) :: t2 =>
        if (k1 =? k2)%N then (vi, wi) :: matched t1 t2
        else if (k1 <? k2)%N then matched t1 c2
        else inner t2
    | _, _ => []
    end.

(** The accumulation of [upd] over the common keys. *)
Definition fold_matched (upd : T -> T -> T -> T) (c1 c2 : iterator T)
    (acc : T) : T :=
  fold_left (fun a p => upd a (fst p) (snd p)) (matched c1 c2) acc.

Definition L1_upd (score vi wi : T) : T := score + L1_term vi wi.

(** What the Kullback-Leibler loop and the loop over the rest of [v1]
    accumulate, one entry at a time. *)
Fixpoint KL_merge (c1 : iterator T) : iterator T -> T -> T :=
  fix inner (c2 : iterator T) (acc : T) : T :=
    match c1, c2 with
    | [], _ => acc
    | _ :: _, [] => KL_rest c1 acc
    | (k1, vi) :: t1, (k2, wi) :: t2 =>
        if (k1 =? k2)%N then KL_merge t1 t2 (KL_upd acc vi wi)
        else if (k1 <? k2)%N then
          KL_merge t1 c2 (acc + vi * (wv_log vi - LOG_EPS))
        else inner t2 acc
    end.

(** The cursors of a state are positions of [v1] and [v2]. *)
Definition is_suffix (c v : list (WordId * T)) : Prop :=
  exists pre, v = pre ++ c.

Definition cursor_inv (v1 v2 : BowVector T) (s : merge_state T) : Prop :=
  is_suffix (v1_it s) v1 /\ is_suffix (v2_it s) v2.

(** The number of entries that the two cursors have not passed yet. *)
Definition cursor_measure (s : merge_state T) : nat :=
  length (v1_it s) + length (v2_it s).

(** What a loop over the common keys will still add to [score], and what
    the Kullback-Leibler loops will. *)
Definition pending (upd : T -> T -> T -> T) (s : merge_state T) : T :=
  fold_matched upd (v1_it s) (v2_it s) (score s).

Definition KL_pending (s : merge_state T) : T :=
  KL_merge (v1_it s) (v2_it s) (score s).

(** *** The scores, read by key look-up *)

(** The pairs of weights at the keys of [a] that [b] has too, in the order
    of [a]: every entry of [a] is looked up in [b]. *)
Definition common (a b : BowVector T) : list (T * T) :=
  flat_map (fun p => match find b (fst p) with
                     | (_, wi) :: _ => [(snd p, wi)]
                     | [] => []
                     end) a.

(** Neither weight of a pair compares equal to zero, or only one does. *)
Definition not_both_zero (p : T * T) : bool :=
  (fst p != wv_zero) || (snd p != wv_zero).

(** [b] has a key above [k]. *)
Definition has_key_above (b : BowVector T) (k : WordId) : bool :=
  existsb (fun q => (k <? fst q)%N) b.

(** What one entry of [a] adds to the Kullback-Leibler score against [b]:
    the match term when [b] has the key; otherwise the epsilon term, without
    a test of the weight when [b] still has a key above, and with the test
    of lines 175-176 when it has not. *)
Definition KL_entry (b : BowVector T) (score : T) (p : WordId * T) : T :=
  match find b (fst p) with
  | (_, wi) :: _ => KL_upd score (snd p) wi
  | [] =>
      if has_key_above b (fst p)
      then score + snd p * (wv_log (snd p) - LOG_EPS)
      else if snd p != wv_zero
           then score + snd p * (wv_log (snd p) - LOG_EPS)
           else score
  end.
End Scoring.

Arguments matched : simpl never.
Arguments KL_merge : simpl never.
Arguments LOG_EPS : simpl never.
Arguments L1_term : simpl never.

(** ** IEEE-754 double precision *)

Module Binary64.
Definition prec : Z := 53.
Definition emax : Z := 1024.

Definition double : Type := spec_float.

(** The double nearest to [m * 2^e]. *)
Definition of_Z_pow2 (m e : Z) : double :=
  binary_normalize prec emax m e false.

Definition pos_zero : double := S754_zero false.
Definition neg_zero : double := S754_zero true.
Definition pos_infinity : double := S754_infinity false.
Definition neg_infinity : double := S754_infinity true.
Definition nan : double := S754_nan.
Definition one : double := of_Z_pow2 1 0.
Definition half : double := of_Z_pow2 1 (-1).

#[export] Instance ops : WordValueOps double := {|
  wv_zero := pos_zero;
  wv_two := of_Z_pow2 2 0;
  wv_DBL_EPSILON := of_Z_pow2 1 (-52);
  wv_add := SFadd prec emax;
  wv_sub := SFsub prec emax;
  wv_mul := SFmul prec emax;
  wv_div := SFdiv prec emax;
  wv_neg := SFopp;
  wv_fabs := SFabs;
  wv_sqrt := SFsqrt prec emax;
  wv_ne := fun x y => negb (SFeqb x y)
|}.

Definition L1 := L1Scoring_score (ops := ops).
Definition L2 := L2Scoring_score (ops := ops).
Definition ChiSquare := ChiSquareScoring_score (ops := ops).
Definition Bhattacharyya := BhattacharyyaScoring_score (ops := ops).
Definition DotProduct := DotProductScoring_score (ops := ops).

(** [log] comes from <cmath>: the Kullback-Leibler score is read for any
    function [log] on doubles. *)
Definition KL (log : double -> double) :=
  KLScoring_score (ops := ops) (lg := Build_WordValueLog log).

(** The double nearest to ln 2. *)
Definition ln2 : double := of_Z_pow2 6243314768165359 (-53).

(** A function on doubles with the values that C (Annex F) fixes for
    [log] at zeros, infinities, NaN, negative numbers and one; elsewhere it
    returns the logarithm of the largest power of two that is not above its
    argument, rounded.  It only serves as an example of a [log]. *)
Definition log_pow2 (x : double) : double :=
  match x with
  | S754_zero _ => neg_infinity
  | S754_infinity false => pos_infinity
  | S754_infinity true => nan
  | S754_nan => nan
  | S754_finite true _ _ => nan
  | S754_finite false m e =>
      SFmul prec emax (of_Z_pow2 (e + Zdigits2 (Zpos m) - 1) 0) ln2
  end.

(** The vectors of the scenarios of the spec. *)
Definition scenario1 : BowVector double := [(1%N, half); (3%N, half)].
Definition scenario2_a : BowVector double := [(2%N, one)].
Definition scenario2_b : BowVector double := [(5%N, one)].

(** A vector with a zero weight at a key below 5. *)
Definition zero_at_3 : BowVector double :=
  [(1%N, half); (3%N, pos_zero); (7%N, half)].

(** The sum of the weights of a vector, added in iteration order. *)
Definition total (v : BowVector double) : double :=
  fold_left (fun s p => SFadd prec emax s (snd p)) v pos_zero.

(** The double written 0.1, and the double next above it. *)
Definition tenth : double := of_Z_pow2 7205759403792794 (-56).
Definition tenth_up : double := of_Z_pow2 7205759403792795 (-56).

(** 2^-600, whose square is below the least positive double. *)
Definition tiny : double := of_Z_pow2 1 (-600).

Definition tenth_v : BowVector double := [(1%N, tenth)].
Definition tiny_v : BowVector double := [(1%N, tiny)].

(** [x * 2^k] for a finite non-negative double [x], when that is an
    integer (that is, when [k] is at least minus the exponent of [x]). *)
Definition scaled_value (k : Z) (x : double) : Z :=
  match x with
  | S754_finite false m e => (Zpos m * 2 ^ (e + k))%Z
  | _ => 0%Z
  end.

(** Five weights whose sum is 1 - 2^-56. *)
Definition below_one : BowVector double :=
  [(1%N, of_Z_pow2 8974312900446118 (-55));
   (2%N, of_Z_pow2 5205827241480856 (-54));
   (3%N, of_Z_pow2 4759396082494123 (-54));
   (4%N, of_Z_pow2 6841540062947291 (-55));
   (5%N, of_Z_pow2 4519958521929608 (-59))].
End Binary64.

(** ** Exact arithmetic *)

Module Exact.
(** [DBL_EPSILON] is 2^-52. *)
Definition DBL_EPSILON : R := (/ 2 ^ 52)%R.
Arguments DBL_EPSILON : simpl never.

#[export] Instance ops : WordValueOps R := {|
  wv_zero := 0%R;
  wv_two := 2%R;
  wv_DBL_EPSILON := DBL_EPSILON;
  wv_add := Rplus;
  wv_sub := Rminus;
  wv_mul := Rmult;
  wv_div := Rdiv;
  wv_neg := Ropp;
  wv_fabs := Rabs;
  wv_sqrt := sqrt;
  wv_ne := fun x y => if Req_dec_T x y then false else true
|}.

#[export] Instance lg : WordValueLog R := {| wv_log := ln |}.

Definition L1 := L1Scoring_score (ops := ops).
Definition L2 := L2Scoring_score (ops := ops).
Definition L2_in_order := L2Scoring_score_in_order (ops := ops).
Definition ChiSquare := ChiSquareScoring_score (ops := ops).
Definition KL := KLScoring_score (ops := ops) (lg := lg).
Definition Bhattacharyya := BhattacharyyaScoring_score (ops := ops).
Definition DotProduct := DotProductScoring_score (ops := ops).

(** The weights of a Sparse Vector are non-negative. *)
Definition nonneg (v : BowVector R) : Prop :=
  Forall (fun p => (0 <= snd p)%R) v.

(** The Sparse Vector invariant. *)
Definition valid (v : BowVector R) : Prop := ascending v /\ nonneg v.

(** All the weights are strictly positive. *)
Definition positive (v : BowVector R) : Prop :=
  Forall (fun p => (0 < snd p)%R) v.

Definition Rsum (l : list R) : R := fold_right Rplus 0%R l.

(** The sum of the weights of a vector. *)
Definition total (v : BowVector R) : R := Rsum (map snd v).

(** The sum of a term over the keys that two vectors have in common. *)
Definition matched_sum (term : R -> R -> R) (a b : BowVector R) : R :=
  Rsum (map (fun p => term (fst p) (snd p)) (matched a b)).

(** The same sum, enumerated as L2 does: every entry of [a] is looked up
    in [b]. *)
Definition lookup_term (term : R -> R -> R) (b : BowVector R)
    (p : WordId * R) : R :=
  match find b (fst p) with
  | (_, w) :: _ => term (snd p) w
  | [] => 0%R
  end.

Definition lookup_sum (term : R -> R -> R) (a b : BowVector R) : R :=
  Rsum (map (lookup_term term b) a).

(** The terms of the scores at a common key. *)
Definition chi_term (v w : R) : R :=
  if Req_dec_T (v + w) 0 then 0%R else (v * w / (v + w))%R.

Definition bhattacharyya_term (v w : R) : R := sqrt (v * w).

Definition KL_match_term (v w : R) : R :=
  if (wv_ne v 0%R && wv_ne w 0%R)%bool then (v * ln (v / w))%R else 0%R.

(** The term of a weight of [a] whose key [b] does not have. *)
Definition KL_only_term (v : R) : R := (v * (ln v - LOG_EPS))%R.

Definition KL_lookup_term (b : BowVector R) (p : WordId * R) : R :=
  match find b (fst p) with
  | (_, w) :: _ => KL_match_term (snd p) w
  | [] => KL_only_term (snd p)
  end.

(** The sum of [vi * (ln vi - LOG_EPS)] over the non-zero weights [vi]. *)
Definition nonzero_weights (a : BowVector R) : list R :=
  filter (fun v => wv_ne v 0%R) (map snd a).

Definition KL_tail_sum (a : BowVector R) : R :=
  Rsum (map KL_only_term (nonzero_weights a)).

Definition KL_lookup_sum (a b : BowVector R) : R :=
  Rsum (map (KL_lookup_term b) a).

(** The weight that a vector stores at a key, if any. *)
Definition weight_at (b : BowVector R) (k : WordId) : option R :=
  match find b k with
  | (_, w) :: _ => Some w
  | [] => None
  end.

(** Two calls return, and return the same number. *)
Definition same_score (x y : option R) : Prop :=
  exists r, x = Some r /\ y = Some r.

(** The vectors of the scenarios of the spec. *)
Definition scenario1 : BowVector R := [(1%N, (1/2)%R); (3%N, (1/2)%R)].
Definition scenario3 : BowVector R := [(1%N, (1/2)%R)].

(** A vector whose weights are not normalised. *)
Definition heavy : BowVector R := [(1%N, 2%R)].

(** *** Distances between sparse vectors *)

(** The weight of a vector at a key; an absent key has weight 0. *)
Definition weight_or_zero (b : BowVector R) (k : WordId) : R :=
  match find b k with
  | (_, w) :: _ => w
  | [] => 0%R
  end.

(** The sum of [d va vb] over the keys that [a] or [b] has, where [va]
    and [vb] are the weights of the two vectors at the key: the keys of
    [a] first, then the keys that only [b] has. *)
Definition sparse_distance (d : R -> R -> R) (a b : BowVector R) : R :=
  (Rsum (map (fun p => d (snd p) (weight_or_zero b (fst p))) a) +
   Rsum (map (fun q => if is_end (find a (fst q)) then d 0 (snd q) else 0) b))%R.

(** The sum of [n v] over the weights of a vector. *)
Definition norm (n : R -> R) (a : BowVector R) : R :=
  Rsum (map (fun p => n (snd p)) a).

(** The terms of the L1 distance, of the chi-square distance (the
    [(v-w)^2/(v+w)] of the comment of line 104), of the squared Hellinger
    distance and of the squared Euclidean distance. *)
Definition L1_distance_term (v w : R) : R := Rabs (v - w).

Definition chi_square_distance_term (v w : R) : R :=
  if Req_dec_T (v + w) 0 then 0%R else ((v - w) * (v - w) / (v + w))%R.

Definition hellinger_term (v w : R) : R :=
  ((sqrt v - sqrt w) * (sqrt v - sqrt w))%R.

Definition euclidean_term (v w : R) : R := ((v - w) * (v - w))%R.

Definition square (v : R) : R := (v * v)%R.

(** A vector with the keys of scenario 1 and other weights. *)
Definition skewed : BowVector R := [(1%N, (1/4)%R); (3%N, (3/4)%R)].
End Exact.

(** ** Facts about loops, iterators and the merge join *)

(** The rule of the [while] loop: an invariant [Inv], a variant [m] that
    every iteration decreases, and a quantity [F] that every iteration
    preserves.  With more fuel than the variant, the loop exits. *)
Lemma while_loop_rule {S R : Type} (Inv : S -> Prop) (m : S -> nat)
    (F : S -> R) (cond : S -> bool) (body : S -> S) :
  (forall s, Inv s -> cond s = true ->
     Inv (body s) /\ m (body s) < m s /\ F (body s) = F s) ->
  forall fuel s, Inv s -> m s < fuel ->
  exists s', while_loop fuel cond body s = Some s' /\
             Inv s' /\ cond s' = false /\ F s' = F s.
Proof.
  intros Hstep fuel; induction fuel as [|n IH]; intros s HI Hm; [lia|].
  simpl. destruct (cond s) eqn:Hc.
  - destruct (Hstep s HI Hc) as (HI' & Hlt & HF).
    destruct (IH (body s) HI') as (s' & Hrun & HI'' & Hc' & HF'); [lia|].
    exists s'. rewrite Hrun, HF', HF. auto.
  - exists s. auto.
Qed.

Section IteratorFacts.
Context {T : Type}.
Implicit Types (v c t : list (WordId * T)) (k : WordId).

Lemma is_suffix_refl v : is_suffix v v.
Proof. exists []. reflexivity. Qed.

Lemma is_suffix_tail p t v : is_suffix (p :: t) v -> is_suffix t v.
Proof.
  intros [pre ->]. exists (pre ++ [p]). now rewrite <- app_assoc.
Qed.

Lemma is_suffix_trans c t v : is_suffix c t -> is_suffix t v -> is_suffix c v.
Proof.
  intros [p1 ->] [p2 ->]. exists (p2 ++ p1). now rewrite app_assoc.
Qed.

Lemma lower_bound_suffix v k : is_suffix (lower_bound v k) v.
Proof.
  induction v as [|[k' x] t IH]; simpl.
  - apply is_suffix_refl.
  - destruct (k' <? k)%N.
    + destruct IH as [pre E]. exists ((k', x) :: pre). simpl. now f_equal.
    + apply is_suffix_refl.
Qed.

Lemma lower_bound_length v k : length (lower_bound v k) <= length v.
Proof.
  induction v as [|[k' x] t IH]; simpl; [lia|].
  destruct (k' <? k)%N; simpl; lia.
Qed.

(** Skipping entries whose keys are all below [k]. *)
Lemma lower_bound_app pre c k :
  Forall (fun p => (fst p < k)%N) pre ->
  lower_bound (pre ++ c) k = lower_bound c k.
Proof.
  induction 1 as [|[k' x] pre Hlt _ IH]; simpl; [reflexivity|].
  simpl in Hlt. apply N.ltb_lt in Hlt. now rewrite Hlt.
Qed.

Lemma ascending_tail p t : ascending (p :: t) -> ascending t.
Proof. unfold ascending; simpl. now inversion 1. Qed.

Lemma ascending_head k x t :
  ascending ((k, x) :: t) -> Forall (fun p => (k < fst p)%N) t.
Proof.
  unfold ascending; simpl. inversion 1; subst.
  now apply Forall_map.
Qed.

(** In an ascending vector the entries before a position have smaller
    keys than the entry at the position. *)
Lemma ascending_prefix pre k x t :
  ascending (pre ++ (k, x) :: t) -> Forall (fun p => (fst p < k)%N) pre.
Proof.
  induction pre as [|[k' y] pre IH]; intros H; constructor.
  - apply ascending_head in H. rewrite Forall_app in H.
    destruct H as [_ H]. now inversion H.
  - apply IH. eapply ascending_tail, H.
Qed.

Lemma ascending_suffix c v : ascending v -> is_suffix c v -> ascending c.
Proof.
  intros H [pre ->]. induction pre as [|p pre IH]; [assumption|].
  apply IH. eapply ascending_tail, H.
Qed.

(** From a position of an ascending vector whose key is below [k], the
    lower bound of [k] in the vector is a strictly later position. *)
Lemma lower_bound_from_cursor v k' x t k :
  ascending v -> is_suffix ((k', x) :: t) v -> (k' < k)%N ->
  lower_bound v k = lower_bound t k.
Proof.
  intros Hv [pre ->] Hlt.
  rewrite lower_bound_app.
  - simpl. apply N.ltb_lt in Hlt. now rewrite Hlt.
  - apply ascending_prefix in Hv.
    eapply Forall_impl; [|exact Hv]. simpl; intros; lia.
Qed.

Lemma find_not_head k' x t k :
  k' <> k -> find ((k', x) :: t) k = find t k.
Proof.
  intros H. simpl. apply N.eqb_neq in H. now rewrite H.
Qed.

Lemma find_above k t :
  Forall (fun p => (k < fst p)%N) t -> find t k = [].
Proof.
  induction 1 as [|[k' x] t Hlt _ IH]; [reflexivity|].
  simpl in *. replace (k' =? k)%N with false; [assumption|].
  symmetry; apply N.eqb_neq; lia.
Qed.
End IteratorFacts.

Section MergeFacts.
Context {T : Type} {ops : WordValueOps T} {lg : WordValueLog T}.
Local Open Scope wv_scope.
Implicit Types (v c t : list (WordId * T)) (k : WordId) (s : merge_state T).

Lemma matched_nil_l c : matched [] c = [].
Proof. destruct c; reflexivity. Qed.

Lemma matched_nil_r c : matched c [] = [].
Proof. destruct c as [|[k x] t]; reflexivity. Qed.

Lemma matched_cons_cons k1 vi t1 k2 wi t2 :
  matched ((k1, vi) :: t1) ((k2, wi) :: t2) =
  if (k1 =? k2)%N then (vi, wi) :: matched t1 t2
  else if (k1 <? k2)%N then matched t1 ((k2, wi) :: t2)
  else matched ((k1, vi) :: t1) t2.
Proof. reflexivity. Qed.

Lemma KL_merge_nil_l c acc : KL_merge [] c acc = acc.
Proof. destruct c; reflexivity. Qed.

Lemma KL_merge_nil_r c acc : KL_merge c [] acc = KL_rest c acc.
Proof. destruct c as [|[k x] t]; reflexivity. Qed.

Lemma KL_merge_cons_cons k1 vi t1 k2 wi t2 acc :
  KL_merge ((k1, vi) :: t1) ((k2, wi) :: t2) acc =
  if (k1 =? k2)%N then KL_merge t1 t2 (KL_upd acc vi wi)
  else if (k1 <? k2)%N then
    KL_merge t1 ((k2, wi) :: t2) (acc + vi * (wv_log vi - LOG_EPS))
  else KL_merge ((k1, vi) :: t1) t2 acc.
Proof. reflexivity. Qed.

(** The entries that a lower-bound skip passes have no partner. *)
Lemma matched_lower_bound_l c1 k2 wi t2 :
  matched (lower_bound c1 k2) ((k2, wi) :: t2) = matched c1 ((k2, wi) :: t2).
Proof.
  induction c1 as [|[k1 vi] t1 IH]; [reflexivity|].
  simpl lower_bound. destruct (N.ltb_spec k1 k2) as [Hlt|Hge]; [|reflexivity].
  rewrite (matched_cons_cons k1), IH.
  destruct (N.eqb_spec k1 k2); [lia|].
  destruct (N.ltb_spec k1 k2); [reflexivity|lia].
Qed.

Lemma matched_lower_bound_r k1 vi t1 c2 :
  matched ((k1, vi) :: t1) (lower_bound c2 k1) = matched ((k1, vi) :: t1) c2.
Proof.
  induction c2 as [|[k2 wi] t2 IH]; [reflexivity|].
  simpl lower_bound. destruct (N.ltb_spec k2 k1) as [Hlt|Hge]; [|reflexivity].
  rewrite (matched_cons_cons k1 vi t1 k2), IH.
  destruct (N.eqb_spec k1 k2); [lia|].
  destruct (N.ltb_spec k1 k2); [lia|reflexivity].
Qed.

Lemma KL_merge_lower_bound_r k1 vi t1 c2 acc :
  KL_merge ((k1, vi) :: t1) (lower_bound c2 k1) acc =
  KL_merge ((k1, vi) :: t1) c2 acc.
Proof.
  induction c2 as [|[k2 wi] t2 IH]; [reflexivity|].
  simpl lower_bound. destruct (N.ltb_spec k2 k1) as [Hlt|Hge]; [|reflexivity].
  rewrite (KL_merge_cons_cons k1 vi t1 k2), IH.
  destruct (N.eqb_spec k1 k2); [lia|].
  destruct (N.ltb_spec k1 k2); [lia|reflexivity].
Qed.

Lemma merge_cond_true s :
  merge_cond s = true ->
  exists k1 vi t1 k2 wi t2,
    v1_it s = (k1, vi) :: t1 /\ v2_it s = (k2, wi) :: t2.
Proof.
  unfold merge_cond.
  destruct (v1_it s) as [|[k1 vi] t1], (v2_it s) as [|[k2 wi] t2];
    simpl; try discriminate.
  intros _. now exists k1, vi, t1, k2, wi, t2.
Qed.

Lemma merge_cond_false s :
  merge_cond s = false -> v1_it s = [] \/ v2_it s = [].
Proof.
  unfold merge_cond.
  destruct (v1_it s), (v2_it s); simpl; auto; discriminate.
Qed.

Lemma pending_at_exit upd s : merge_cond s = false -> pending upd s = score s.
Proof.
  intros H. unfold pending, fold_matched.
  destruct (merge_cond_false _ H) as [-> | ->];
    [rewrite matched_nil_l | rewrite matched_nil_r]; reflexivity.
Qed.

Lemma KL_pending_at_exit s :
  merge_cond s = false -> KL_pending s = KL_rest (v1_it s) (score s).
Proof.
  intros H. unfold KL_pending.
  destruct (merge_cond_false _ H) as [-> | ->];
    [rewrite KL_merge_nil_l | rewrite KL_merge_nil_r]; reflexivity.
Qed.

(** One iteration of the L1 loop passes at least one entry. *)
Lemma L1_body_step s :
  merge_cond s = true ->
  cursor_measure (L1_body s) < cursor_measure s /\
  pending L1_upd (L1_body s) = pending L1_upd s.
Proof.
  intros Hc. destruct (merge_cond_true _ Hc)
    as (k1 & vi & t1 & k2 & wi & t2 & E1 & E2).
  unfold L1_body, cursor_measure, pending, fold_matched.
  rewrite E1, E2, matched_cons_cons.
  destruct (k1 =? k2)%N; [|destruct (k1 <? k2)%N];
    simpl; split; try lia; reflexivity.
Qed.

Section LowerBoundLoops.
Variables (upd : T -> T -> T -> T) (v1 v2 : BowVector T).
Hypotheses (Hv1 : ascending v1) (Hv2 : ascending v2).

(** One iteration of a loop with lower-bound skips moves a cursor to a
    strictly later position of its vector. *)
Lemma lb_body_step s :
  cursor_inv v1 v2 s -> merge_cond s = true ->
  cursor_inv v1 v2 (lb_body upd v1 v2 s) /\
  cursor_measure (lb_body upd v1 v2 s) < cursor_measure s /\
  pending upd (lb_body upd v1 v2 s) = pending upd s.
Proof.
  intros [S1 S2] Hc. destruct (merge_cond_true _ Hc)
    as (k1 & vi & t1 & k2 & wi & t2 & E1 & E2).
  unfold lb_body, cursor_inv, cursor_measure, pending, fold_matched.
  rewrite E1, E2 in *. rewrite matched_cons_cons.
  destruct (N.eqb_spec k1 k2) as [->|Hne];
    [|destruct (N.ltb_spec k1 k2) as [Hlt|Hge]]; simpl.
  - repeat split; try lia; eauto using is_suffix_tail.
  - rewrite (lower_bound_from_cursor Hv1 S1 Hlt).
    rewrite matched_lower_bound_l.
    pose proof (lower_bound_length t1 k2).
    repeat split; try lia; auto.
    eapply is_suffix_trans; [apply lower_bound_suffix|].
    eapply is_suffix_tail, S1.
  - assert (Hgt : (k2 < k1)%N) by lia.
    rewrite (lower_bound_from_cursor Hv2 S2 Hgt).
    rewrite matched_lower_bound_r.
    pose proof (lower_bound_length t2 k1).
    repeat split; try lia; auto.
    eapply is_suffix_trans; [apply lower_bound_suffix|].
    eapply is_suffix_tail, S2.
Qed.

Lemma lb_loop fuel :
  length v1 + length v2 < fuel ->
  exists s', while_loop fuel merge_cond (lb_body upd v1 v2)
               (merge_init v1 v2) = Some s' /\
             score s' = fold_matched upd v1 v2 wv_zero.
Proof.
  intros Hf.
  destruct (@while_loop_rule _ _ (cursor_inv v1 v2) cursor_measure
              (pending upd) merge_cond (lb_body upd v1 v2) lb_body_step
              fuel (merge_init v1 v2))
    as (s' & Hrun & _ & Hc & HF).
  - split; apply is_suffix_refl.
  - exact Hf.
  - exists s'. split; [exact Hrun|].
    now rewrite <- (pending_at_exit upd _ Hc), HF.
Qed.

Lemma KL_body_step s :
  cursor_inv v1 v2 s -> merge_cond s = true ->
  cursor_inv v1 v2 (KL_body v2 s) /\
  cursor_measure (KL_body v2 s) < cursor_measure s /\
  KL_pending (KL_body v2 s) = KL_pending s.
Proof.
  intros [S1 S2] Hc. destruct (merge_cond_true _ Hc)
    as (k1 & vi & t1 & k2 & wi & t2 & E1 & E2).
  unfold KL_body, cursor_inv, cursor_measure, KL_pending.
  rewrite E1, E2 in *. rewrite KL_merge_cons_cons.
  destruct (N.eqb_spec k1 k2) as [->|Hne];
    [|destruct (N.ltb_spec k1 k2) as [Hlt|Hge]]; simpl.
  - repeat split; try lia; eauto using is_suffix_tail.
  - repeat split; try lia; eauto using is_suffix_tail.
  - assert (Hgt : (k2 < k1)%N) by lia.
    rewrite (lower_bound_from_cursor Hv2 S2 Hgt).
    rewrite KL_merge_lower_bound_r.
    pose proof (lower_bound_length t2 k1).
    repeat split; try lia; auto.
    eapply is_suffix_trans; [apply lower_bound_suffix|].
    eapply is_suffix_tail, S2.
Qed.

Lemma KL_loop fuel :
  length v1 + length v2 < fuel ->
  exists s', while_loop fuel merge_cond (KL_body v2)
               (merge_init v1 v2) = Some s' /\
             KL_rest (v1_it s') (score s') = KL_merge v1 v2 wv_zero.
Proof.
  intros Hf.
  destruct (@while_loop_rule _ _ (cursor_inv v1 v2) cursor_measure
              KL_pending merge_cond (KL_body v2) KL_body_step
              fuel (merge_init v1 v2))
    as (s' & Hrun & _ & Hc & HF).
  - split; apply is_suffix_refl.
  - exact Hf.
  - exists s'. split; [exact Hrun|].
    now rewrite <- (KL_pending_at_exit _ Hc), HF.
Qed.
End LowerBoundLoops.

Lemma L1_loop v1 v2 fuel :
  length v1 + length v2 < fuel ->
  exists s', while_loop fuel merge_cond L1_body (merge_init v1 v2) = Some s' /\
             score s' = fold_matched L1_upd v1 v2 wv_zero.
Proof.
  intros Hf.
  destruct (@while_loop_rule _ _ (fun _ => True) cursor_measure
              (pending L1_upd) merge_cond L1_body
              (fun s _ Hc => conj I (L1_body_step s Hc))
                fuel (merge_init v1 v2))
    as (s' & Hrun & _ & Hc & HF); [exact I|exact Hf|].
  exists s'. split; [exact Hrun|].
  now rewrite <- (pending_at_exit L1_upd _ Hc), HF.
Qed.

(** *** The scores in closed form *)

Lemma L1Scoring_score_eq v1 v2 :
  L1Scoring_score v1 v2 = Some (- fold_matched L1_upd v1 v2 wv_zero / wv_two).
Proof.
  unfold L1Scoring_score.
  destruct (L1_loop v1 v2 (fuel := merge_fuel v1 v2)) as (s' & -> & ->);
    [unfold merge_fuel; lia | reflexivity].
Qed.

Lemma ChiSquareScoring_score_eq v1 v2 :
  ascending v1 -> ascending v2 ->
  ChiSquareScoring_score v1 v2 =
  Some (wv_two * fold_matched ChiSquare_upd v1 v2 wv_zero).
Proof.
  intros H1 H2. unfold ChiSquareScoring_score.
  destruct (lb_loop ChiSquare_upd H1 H2 (fuel := merge_fuel v1 v2))
    as (s' & Hrun & <-); [unfold merge_fuel; lia|].
  change (ChiSquare_body v1 v2) with (lb_body ChiSquare_upd v1 v2).
  now rewrite Hrun.
Qed.

Lemma BhattacharyyaScoring_score_eq v1 v2 :
  ascending v1 -> ascending v2 ->
  BhattacharyyaScoring_score v1 v2 =
  Some (fold_matched Bhattacharyya_upd v1 v2 wv_zero).
Proof.
  intros H1 H2. unfold BhattacharyyaScoring_score.
  destruct (lb_loop Bhattacharyya_upd H1 H2 (fuel := merge_fuel v1 v2))
    as (s' & Hrun & <-); [unfold merge_fuel; lia|].
  change (Bhattacharyya_body v1 v2) with (lb_body Bhattacharyya_upd v1 v2).
  now rewrite Hrun.
Qed.

Lemma DotProductScoring_score_eq v1 v2 :
  ascending v1 -> ascending v2 ->
  DotProductScoring_score v1 v2 =
  Some (fold_matched DotProduct_upd v1 v2 wv_zero).
Proof.
  intros H1 H2. unfold DotProductScoring_score.
  destruct (lb_loop DotProduct_upd H1 H2 (fuel := merge_fuel v1 v2))
    as (s' & Hrun & <-); [unfold merge_fuel; lia|].
  change (DotProduct_body v1 v2) with (lb_body DotProduct_upd v1 v2).
  now rewrite Hrun.
Qed.

Lemma KLScoring_score_eq v1 v2 :
  ascending v2 ->
  KLScoring_score v1 v2 = Some (KL_merge v1 v2 wv_zero).
Proof.
  intros H2. unfold KLScoring_score.
  destruct (KL_loop v1 H2 (fuel := merge_fuel v1 v2))
    as (s' & Hrun & <-); [unfold merge_fuel; lia|].
  now rewrite Hrun.
Qed.
End MergeFacts.

(** ** The scores in exact arithmetic *)

Section ExactFacts.
Import Exact.
Local Open Scope R_scope.
Implicit Types (a b : BowVector R) (k : WordId) (v w acc : R).

Lemma wv_ne_true v w : v <> w -> wv_ne v w = true.
Proof. intros H. simpl. destruct (Req_dec_T v w); [contradiction|reflexivity]. Qed.

Lemma wv_ne_false v : wv_ne v v = false.
Proof. simpl. destruct (Req_dec_T v v); [reflexivity|contradiction]. Qed.

Lemma wv_ne_spec v w : wv_ne v w = true <-> v <> w.
Proof.
  simpl. destruct (Req_dec_T v w); split; intros; congruence.
Qed.

Lemma Rsum_app l1 l2 : Rsum (l1 ++ l2) = Rsum l1 + Rsum l2.
Proof. induction l1; simpl; lra. Qed.

Lemma Rsum_perm l1 l2 : Permutation l1 l2 -> Rsum l1 = Rsum l2.
Proof. induction 1; simpl; lra. Qed.

Lemma fold_left_Rplus l acc : fold_left Rplus l acc = acc + Rsum l.
Proof. revert acc; induction l as [|x l IH]; intros; simpl; [lra|]. rewrite IH; lra. Qed.

(** A loop that adds a term at every common key computes [matched_sum]. *)
Lemma fold_matched_sum (upd : R -> R -> R -> R) (term : R -> R -> R) :
  (forall acc v w, upd acc v w = acc + term v w) ->
  forall a b acc, fold_matched upd a b acc = acc + matched_sum term a b.
Proof.
  intros Hupd a b. unfold fold_matched, matched_sum.
  induction (matched a b) as [|p l IH]; intros acc; simpl; [lra|].
  rewrite IH, Hupd. lra.
Qed.

Lemma ChiSquare_upd_term acc v w : ChiSquare_upd acc v w = acc + chi_term v w.
Proof.
  unfold ChiSquare_upd, chi_term. simpl.
  destruct (Req_dec_T (v + w) 0); lra.
Qed.

Lemma L1_closed a b : L1 a b = Some (- matched_sum L1_term a b / 2).
Proof.
  unfold L1. rewrite L1Scoring_score_eq.
  rewrite (fold_matched_sum L1_upd L1_term) by reflexivity.
  simpl. f_equal. lra.
Qed.

Lemma ChiSquare_closed a b :
  ascending a -> ascending b ->
  ChiSquare a b = Some (2 * matched_sum chi_term a b).
Proof.
  intros Ha Hb. unfold ChiSquare. rewrite ChiSquareScoring_score_eq by assumption.
  rewrite (fold_matched_sum ChiSquare_upd chi_term ChiSquare_upd_term).
  simpl. f_equal. lra.
Qed.

Lemma Bhattacharyya_closed a b :
  ascending a -> ascending b ->
  Bhattacharyya a b = Some (matched_sum bhattacharyya_term a b).
Proof.
  intros Ha Hb. unfold Bhattacharyya.
  rewrite BhattacharyyaScoring_score_eq by assumption.
  rewrite (fold_matched_sum Bhattacharyya_upd bhattacharyya_term) by reflexivity.
  simpl. f_equal. lra.
Qed.

Lemma DotProduct_closed a b :
  ascending a -> ascending b ->
  DotProduct a b = Some (matched_sum Rmult a b).
Proof.
  intros Ha Hb. unfold DotProduct.
  rewrite DotProductScoring_score_eq by assumption.
  rewrite (fold_matched_sum DotProduct_upd Rmult) by reflexivity.
  simpl. f_equal. lra.
Qed.

Lemma KL_closed a b : ascending b -> KL a b = Some (KL_merge a b 0).
Proof. intros Hb. unfold KL. now rewrite KLScoring_score_eq. Qed.
(** *** The common keys of two vectors *)

Lemma matched_swap {T} (c1 c2 : iterator T) :
  matched c2 c1 = map (fun p => (snd p, fst p)) (matched c1 c2).
Proof.
  revert c2. induction c1 as [|[k1 vi] t1 IH1]; intros c2.
  - now rewrite matched_nil_l, matched_nil_r.
  - induction c2 as [|[k2 wi] t2 IH2]; [reflexivity|].
    rewrite !matched_cons_cons, (N.eqb_sym k2 k1).
    destruct (N.eqb_spec k1 k2) as [->|Hne].
    + simpl. now rewrite IH1.
    + destruct (N.ltb_spec k1 k2), (N.ltb_spec k2 k1); try lia.
      * apply IH1.
      * apply IH2.
Qed.

Lemma matched_self {T} (c : iterator T) :
  matched c c = map (fun p => (snd p, snd p)) c.
Proof.
  induction c as [|[k x] t IH]; [reflexivity|].
  rewrite matched_cons_cons, N.eqb_refl, IH. reflexivity.
Qed.

Lemma matched_sum_swap term a b :
  matched_sum term b a = matched_sum (fun v w => term w v) a b.
Proof.
  unfold matched_sum. rewrite matched_swap, map_map. reflexivity.
Qed.

Lemma matched_sum_sym term a b :
  (forall v w, term v w = term w v) ->
  matched_sum term a b = matched_sum term b a.
Proof.
  intros Hs. rewrite (matched_sum_swap term a b).
  unfold matched_sum. f_equal. apply map_ext. intros; apply Hs.
Qed.

Lemma matched_sum_ext term term' a b :
  (forall v w, term v w = term' v w) ->
  matched_sum term a b = matched_sum term' a b.
Proof.
  intros H. unfold matched_sum. f_equal. apply map_ext. intros; apply H.
Qed.

Lemma matched_sum_cons term k1 v t1 k2 w t2 :
  matched_sum term ((k1, v) :: t1) ((k2, w) :: t2) =
  if (k1 =? k2)%N then term v w + matched_sum term t1 t2
  else if (k1 <? k2)%N then matched_sum term t1 ((k2, w) :: t2)
  else matched_sum term ((k1, v) :: t1) t2.
Proof.
  unfold matched_sum. rewrite matched_cons_cons.
  destruct (k1 =? k2)%N; [|destruct (k1 <? k2)%N]; reflexivity.
Qed.

Lemma lookup_term_skip term k w t p :
  (k < fst p)%N -> lookup_term term ((k, w) :: t) p = lookup_term term t p.
Proof.
  intros H. unfold lookup_term.
  rewrite find_not_head by (apply N.lt_neq, H). reflexivity.
Qed.

Lemma lookup_sum_skip term k w t a :
  Forall (fun p => (k < fst p)%N) a ->
  lookup_sum term a ((k, w) :: t) = lookup_sum term a t.
Proof.
  unfold lookup_sum. induction 1 as [|p a Hp _ IH]; simpl; [reflexivity|].
  now rewrite IH, lookup_term_skip.
Qed.

(** The merge join and the look-up of every entry of [a] in [b] find the
    same common keys. *)
Lemma matched_sum_lookup term a b :
  ascending a -> ascending b -> matched_sum term a b = lookup_sum term a b.
Proof.
  revert b. induction a as [|[k1 v] t1 IH1]; intros b Ha Hb.
  - unfold matched_sum. now rewrite matched_nil_l.
  - pose proof (ascending_tail Ha) as Ht1.
    pose proof (ascending_head Ha) as Hh1.
    induction b as [|[k2 w] t2 IH2].
    + unfold matched_sum. rewrite matched_nil_r. simpl.
      specialize (IH1 [] Ht1 Hb). unfold matched_sum in IH1.
      rewrite matched_nil_r in IH1. simpl in IH1.
      unfold lookup_sum in *. simpl. unfold lookup_term at 1. simpl. lra.
    + pose proof (ascending_tail Hb) as Ht2.
      pose proof (ascending_head Hb) as Hh2.
      rewrite matched_sum_cons.
      destruct (N.eqb_spec k1 k2) as [->|Hne];
        [|destruct (N.ltb_spec k1 k2) as [Hlt|Hge]].
      * rewrite (IH1 t2 Ht1 Ht2).
        unfold lookup_sum at 2. simpl. fold (lookup_sum term t1 ((k2, w) :: t2)).
        rewrite lookup_sum_skip by assumption.
        unfold lookup_term. simpl. now rewrite N.eqb_refl.
      * rewrite (IH1 _ Ht1 Hb).
        unfold lookup_sum at 2. simpl. fold (lookup_sum term t1 ((k2, w) :: t2)).
        unfold lookup_term at 1.
        replace (find ((k2, w) :: t2) (fst (k1, v))) with (@nil (WordId * R)); [lra|].
        symmetry. apply find_above. constructor; [exact Hlt|].
        eapply Forall_impl; [|exact Hh2]. simpl; intros; lia.
      * rewrite (IH2 Ht2). symmetry. apply lookup_sum_skip.
        constructor; [simpl; lia|].
        eapply Forall_impl; [|exact Hh1]. simpl; intros; lia.
Qed.
(** *** The terms *)

Lemma L1_term_nonneg v w : 0 <= v -> 0 <= w -> L1_term v w = - 2 * Rmin v w.
Proof.
  intros Hv Hw. unfold L1_term. simpl.
  rewrite (Rabs_pos_eq v), (Rabs_pos_eq w) by assumption.
  unfold Rmin. destruct (Rle_dec v w).
  - rewrite Rabs_left1 by lra. lra.
  - rewrite Rabs_pos_eq by lra. lra.
Qed.

Lemma L1_term_sym v w : L1_term v w = L1_term w v.
Proof. unfold L1_term. simpl. rewrite (Rabs_minus_sym v w). lra. Qed.

Lemma L1_term_zero_l w : L1_term 0 w = 0.
Proof.
  unfold L1_term. simpl. rewrite Rabs_R0.
  replace (0 - w) with (- w) by lra. rewrite Rabs_Ropp. lra.
Qed.

Lemma chi_term_sym v w : chi_term v w = chi_term w v.
Proof.
  unfold chi_term. rewrite (Rplus_comm w v).
  destruct (Req_dec_T (v + w) 0); [reflexivity|]. now rewrite (Rmult_comm w v).
Qed.

Lemma chi_term_zero_l w : chi_term 0 w = 0.
Proof.
  unfold chi_term. destruct (Req_dec_T (0 + w) 0); [reflexivity|].
  unfold Rdiv. now rewrite !Rmult_0_l.
Qed.

Lemma chi_term_self v : chi_term v v = v / 2.
Proof.
  unfold chi_term. destruct (Req_dec_T (v + v) 0) as [E|E]; [lra|].
  field. lra.
Qed.

Lemma bhattacharyya_term_sym v w :
  bhattacharyya_term v w = bhattacharyya_term w v.
Proof. unfold bhattacharyya_term. now rewrite Rmult_comm. Qed.

Lemma bhattacharyya_term_zero_l w : bhattacharyya_term 0 w = 0.
Proof. unfold bhattacharyya_term. rewrite Rmult_0_l. apply sqrt_0. Qed.

Lemma bhattacharyya_term_self v : 0 <= v -> bhattacharyya_term v v = v.
Proof. intros H. unfold bhattacharyya_term. now apply sqrt_square. Qed.

(** The arithmetic and the geometric mean. *)
Lemma bhattacharyya_term_le v w :
  0 <= v -> 0 <= w -> bhattacharyya_term v w <= (v + w) / 2.
Proof.
  intros Hv Hw. unfold bhattacharyya_term.
  apply Rsqr_incr_0_var; [|lra].
  rewrite Rsqr_sqrt by nra.
  pose proof (Rle_0_sqr (v - w)) as Hsq. unfold Rsqr in *. nra.
Qed.

Lemma KL_match_term_self v : KL_match_term v v = 0.
Proof.
  unfold KL_match_term. destruct (wv_ne v 0) eqn:E; [|reflexivity].
  apply wv_ne_spec in E. simpl.
  replace (v / v) with 1 by (field; assumption). rewrite ln_1. lra.
Qed.

Lemma KL_upd_term acc v w : KL_upd acc v w = acc + KL_match_term v w.
Proof.
  unfold KL_upd, KL_match_term.
  destruct (wv_ne v wv_zero && wv_ne w wv_zero)%bool eqn:E;
    simpl in *; rewrite E; simpl; lra.
Qed.

(** [DBL_EPSILON] is a positive number below one half. *)
Lemma DBL_EPSILON_bounds : 0 < DBL_EPSILON < 1 / 2.
Proof.
  unfold DBL_EPSILON.
  assert (H : 2 ^ 1 < 2 ^ 52) by (apply Rlt_pow; [lra|lia]).
  simpl (2 ^ 1) in H. rewrite Rmult_1_r in H.
  split.
  - apply Rinv_0_lt_compat. lra.
  - replace (1 / 2) with (/ 2) by lra.
    apply Rinv_lt_contravar; [|exact H]. nra.
Qed.

Lemma LOG_EPS_lt_ln_half : LOG_EPS < ln (1 / 2).
Proof.
  unfold LOG_EPS. simpl. apply ln_increasing; apply DBL_EPSILON_bounds.
Qed.

(** *** The loop over the rest of [v1] *)

Lemma KL_tail_sum_cons k v t :
  KL_tail_sum ((k, v) :: t) =
  (if wv_ne v 0 then KL_only_term v else 0) + KL_tail_sum t.
Proof.
  unfold KL_tail_sum, nonzero_weights. simpl.
  destruct (Req_dec_T v 0); simpl; lra.
Qed.

Lemma KL_rest_sum a acc : KL_rest a acc = acc + KL_tail_sum a.
Proof.
  revert acc. induction a as [|[k v] t IH]; intros acc.
  - unfold KL_tail_sum. simpl. lra.
  - simpl KL_rest. rewrite IH, KL_tail_sum_cons.
    unfold KL_only_term. simpl. destruct (Req_dec_T v 0); lra.
Qed.

Lemma KL_merge_self a acc : KL_merge a a acc = acc.
Proof.
  revert acc. induction a as [|[k v] t IH]; intros acc; [reflexivity|].
  rewrite KL_merge_cons_cons, N.eqb_refl, IH, KL_upd_term, KL_match_term_self.
  lra.
Qed.
(** *** L2 in closed form *)

Lemma L2_visit_sum b partialScores p :
  Rsum (L2_visit b partialScores p) =
  Rsum partialScores + lookup_term L1_term b p.
Proof.
  unfold L2_visit, lookup_term.
  destruct (find b (fst p)) as [|[k' w] rest]; [lra|].
  destruct (wv_ne (snd p) wv_zero || wv_ne w wv_zero)%bool eqn:E.
  - rewrite Rsum_app. simpl. lra.
  - apply orb_false_elim in E. destruct E as [E1 E2]. simpl in E1, E2.
    destruct (Req_dec_T (snd p) 0) as [-> |]; [|discriminate].
    destruct (Req_dec_T w 0) as [-> |]; [|discriminate].
    rewrite L1_term_zero_l. lra.
Qed.

Lemma L2_partialScores_sum b order partialScores :
  Rsum (fold_left (L2_visit b) order partialScores) =
  Rsum partialScores + lookup_sum L1_term order b.
Proof.
  revert partialScores. unfold lookup_sum.
  induction order as [|p order IH]; intros acc; simpl; [lra|].
  rewrite IH, L2_visit_sum. lra.
Qed.

Lemma L2_in_order_closed order b :
  L2_in_order order b = - lookup_sum L1_term order b / 2.
Proof.
  unfold L2_in_order, L2Scoring_score_in_order.
  change (@wv_add R ops) with Rplus.
  rewrite fold_left_Rplus, L2_partialScores_sum. simpl. lra.
Qed.

Lemma lookup_sum_perm term a order b :
  Permutation a order -> lookup_sum term a b = lookup_sum term order b.
Proof.
  intros H. unfold lookup_sum. apply Rsum_perm. now apply Permutation_map.
Qed.

Lemma lookup_sum_nil_r term a : lookup_sum term a [] = 0.
Proof.
  unfold lookup_sum. induction a as [|p a IH]; simpl; [reflexivity|].
  rewrite IH. unfold lookup_term. simpl. lra.
Qed.

Lemma matched_sum_nil_l term b : matched_sum term [] b = 0.
Proof. unfold matched_sum. now rewrite matched_nil_l. Qed.

Lemma matched_sum_nil_r term a : matched_sum term a [] = 0.
Proof. unfold matched_sum. now rewrite matched_nil_r. Qed.

Lemma ascending_nil : ascending (@nil (WordId * R)).
Proof. constructor. Qed.

Lemma scenario1_valid : valid scenario1.
Proof.
  split.
  - unfold ascending, scenario1; simpl. repeat constructor; lia.
  - unfold nonneg, scenario1. repeat constructor; simpl; lra.
Qed.

Lemma scenario3_valid : valid scenario3.
Proof.
  split.
  - unfold ascending, scenario3; simpl. repeat constructor.
  - unfold nonneg, scenario3. repeat constructor; simpl; lra.
Qed.

Lemma valid_nil : valid [].
Proof. split; constructor. Qed.

(** *** Scenario 1 *)

(** C1, as stated, does not hold: on the vectors of scenario 1 the L1 score
    is not 0.5, neither in exact arithmetic nor in double precision. *)
Lemma scenario1_L1_is_not_half :
  Exact.L1 scenario1 scenario1 <> Some (1 / 2) /\
  Binary64.L1 Binary64.scenario1 Binary64.scenario1 <> Some Binary64.half.
Proof.
  split.
  - rewrite L1_closed. unfold matched_sum. rewrite matched_self.
    unfold scenario1. simpl map. unfold Rsum. simpl fold_right.
    rewrite !L1_term_nonneg by lra.
    unfold Rmin. destruct (Rle_dec (1 / 2) (1 / 2)); [|lra].
    intros H. injection H as H. lra.
  - vm_compute. discriminate.
Qed.

(** C1 (corrected): for a = b = {1: 0.5, 3: 0.5} the L1 score is 1.0 (each
    of the two matched keys contributes -1 to the sum, and the score is
    -(-2)/2), the Bhattacharyya score is 1.0 and the dot product is 0.5;
    in exact arithmetic and in double precision alike. *)
Theorem scenario1_scores :
  Exact.L1 scenario1 scenario1 = Some 1 /\
  Exact.Bhattacharyya scenario1 scenario1 = Some 1 /\
  Exact.DotProduct scenario1 scenario1 = Some (1 / 2) /\
  Binary64.L1 Binary64.scenario1 Binary64.scenario1 = Some Binary64.one /\
  Binary64.Bhattacharyya Binary64.scenario1 Binary64.scenario1
    = Some Binary64.one /\
  Binary64.DotProduct Binary64.scenario1 Binary64.scenario1
    = Some Binary64.half.
Proof.
  destruct scenario1_valid as [Ha _].
  repeat split; try (vm_compute; reflexivity).
  - rewrite L1_closed. unfold matched_sum. rewrite matched_self.
    unfold scenario1. simpl map. unfold Rsum. simpl fold_right.
    rewrite !L1_term_nonneg by lra.
    unfold Rmin. destruct (Rle_dec (1 / 2) (1 / 2)); [|lra].
    f_equal. lra.
  - rewrite Bhattacharyya_closed by assumption.
    unfold matched_sum. rewrite matched_self.
    unfold scenario1. simpl map. unfold Rsum. simpl fold_right.
    rewrite !bhattacharyya_term_self by lra. f_equal. lra.
  - rewrite DotProduct_closed by assumption.
    unfold matched_sum. rewrite matched_self.
    unfold scenario1. simpl. f_equal. lra.
Qed.
(** *** Bounds on sums over the common keys *)

Lemma total_cons k v t : total ((k, v) :: t) = v + total t.
Proof. reflexivity. Qed.

Lemma total_nonneg a : nonneg a -> 0 <= total a.
Proof.
  induction 1 as [|[k v] t Hv _ IH]; [unfold total; simpl; lra|].
  rewrite total_cons. simpl in Hv. lra.
Qed.

Lemma matched_sum_opp term a b :
  matched_sum (fun v w => - term v w) a b = - matched_sum term a b.
Proof.
  unfold matched_sum. induction (matched a b) as [|p l IH]; simpl; [lra|].
  rewrite IH. lra.
Qed.

Lemma matched_sum_upper term c d a b :
  0 <= c -> 0 <= d ->
  (forall v w, 0 <= v -> 0 <= w -> term v w <= c * v + d * w) ->
  nonneg a -> nonneg b ->
  matched_sum term a b <= c * total a + d * total b.
Proof.
  intros Hc Hd Hterm Ha. revert b.
  induction Ha as [|[k1 v] t1 Hv Ht1 IH1]; intros b Hb.
  - rewrite matched_sum_nil_l. apply total_nonneg in Hb.
    unfold total at 1; simpl. nra.
  - pose proof (total_nonneg Ht1) as Hp1. simpl in Hv.
    induction Hb as [|[k2 w] t2 Hw Ht2 IH2].
    + rewrite matched_sum_nil_r, total_cons. unfold total at 2; simpl. nra.
    + pose proof (total_nonneg Ht2) as Hp2. simpl in Hw.
      rewrite matched_sum_cons, !total_cons.
      destruct (k1 =? k2)%N; [|destruct (k1 <? k2)%N].
      * specialize (IH1 t2 Ht2). specialize (Hterm v w Hv Hw). nra.
      * assert (Hb' : nonneg ((k2, w) :: t2)) by (constructor; assumption).
        specialize (IH1 _ Hb'). rewrite total_cons in IH1. nra.
      * rewrite total_cons in IH2. nra.
Qed.

Lemma matched_sum_lower term a b :
  (forall v w, 0 <= v -> 0 <= w -> 0 <= term v w) ->
  nonneg a -> nonneg b -> 0 <= matched_sum term a b.
Proof.
  intros Hterm Ha. revert b.
  induction Ha as [|[k1 v] t1 Hv Ht1 IH1]; intros b Hb.
  - rewrite matched_sum_nil_l. lra.
  - simpl in Hv. induction Hb as [|[k2 w] t2 Hw Ht2 IH2].
    + rewrite matched_sum_nil_r. lra.
    + simpl in Hw. rewrite matched_sum_cons.
      destruct (k1 =? k2)%N; [|destruct (k1 <? k2)%N].
      * specialize (IH1 t2 Ht2). specialize (Hterm v w Hv Hw). lra.
      * apply IH1. now constructor.
      * exact IH2.
Qed.

Lemma matched_sum_self term a :
  matched_sum term a a = Rsum (map (fun p => term (snd p) (snd p)) a).
Proof. unfold matched_sum. now rewrite matched_self, map_map. Qed.

Lemma Rsum_map_ext_nonneg (f : R -> R) a :
  (forall v, 0 <= v -> f v = v) -> nonneg a ->
  Rsum (map (fun p => f (snd p)) a) = total a.
Proof.
  intros Hf. induction 1 as [|[k v] t Hv _ IH]; [reflexivity|].
  rewrite total_cons. simpl in *. rewrite IH, Hf by assumption. reflexivity.
Qed.

Lemma Rsum_map_half a :
  Rsum (map (fun p => snd p / 2) a) = total a / 2.
Proof.
  induction a as [|[k v] t IH]; [unfold total; simpl; lra|].
  rewrite total_cons. simpl in *. rewrite IH. lra.
Qed.

(** The L1 score is the sum of [min vi wi] over the common keys. *)
Lemma L1_score_bounds a b :
  nonneg a -> nonneg b ->
  0 <= - matched_sum L1_term a b / 2 /\
  - matched_sum L1_term a b / 2 <= total a /\
  - matched_sum L1_term a b / 2 <= total b.
Proof.
  intros Ha Hb. rewrite <- matched_sum_opp.
  assert (Hmin : forall v w, 0 <= v -> 0 <= w ->
            0 <= - L1_term v w /\ - L1_term v w <= 2 * v + 0 * w /\
            - L1_term v w <= 0 * v + 2 * w).
  { intros v w Hv Hw. rewrite L1_term_nonneg by assumption.
    unfold Rmin. destruct (Rle_dec v w); lra. }
  pose proof (@matched_sum_lower (fun v w => - L1_term v w) a b
                (fun v w Hv Hw => proj1 (Hmin v w Hv Hw)) Ha Hb).
  pose proof (@matched_sum_upper (fun v w => - L1_term v w) 2 0 a b
                ltac:(lra) ltac:(lra)
                (fun v w Hv Hw => proj1 (proj2 (Hmin v w Hv Hw))) Ha Hb).
  pose proof (@matched_sum_upper (fun v w => - L1_term v w) 0 2 a b
                ltac:(lra) ltac:(lra)
                (fun v w Hv Hw => proj2 (proj2 (Hmin v w Hv Hw))) Ha Hb).
  lra.
Qed.
(** *** The range of the L1 score *)

Lemma heavy_valid : valid heavy.
Proof.
  split.
  - unfold ascending, heavy; simpl. repeat constructor.
  - unfold nonneg, heavy. repeat constructor; simpl; lra.
Qed.

(** C4, as stated, does not hold: the vector {1: 2} satisfies the Sparse
    Vector invariant, and its L1 score against itself is 2. *)
Lemma L1_score_above_one :
  valid heavy /\ Exact.L1 heavy heavy = Some 2 /\ ~ (0 <= 2 <= 1).
Proof.
  split; [exact heavy_valid|]. split; [|lra].
  rewrite L1_closed, matched_sum_self. unfold heavy. simpl map.
  unfold Rsum. simpl fold_right. rewrite L1_term_nonneg by lra.
  unfold Rmin. destruct (Rle_dec 2 2); [|lra]. f_equal. lra.
Qed.

(** C4 (corrected): in exact arithmetic, for vectors a, b that satisfy the
    Sparse Vector invariant, the L1 score, which is -(sum over the matched
    keys of |vi-wi| - |vi| - |wi|)/2, lies between 0 and the smaller of the
    two total weights; hence it lies in [0,1] when at least one of the two
    vectors has total weight at most 1. *)
Theorem L1_score_range a b :
  valid a -> valid b ->
  exists r, Exact.L1 a b = Some r /\
            r = - matched_sum L1_term a b / 2 /\
            0 <= r /\ r <= total a /\ r <= total b /\
            (total a <= 1 \/ total b <= 1 -> 0 <= r <= 1).
Proof.
  intros [_ Ha] [_ Hb].
  exists (- matched_sum L1_term a b / 2). split; [apply L1_closed|].
  destruct (L1_score_bounds Ha Hb) as (H0 & H1 & H2).
  repeat split; try assumption. destruct H; lra.
Qed.

Lemma scenario1_total : total scenario1 = 1.
Proof. unfold total, scenario1. simpl. lra. Qed.

Lemma L1_score_range_witness :
  exists r, Exact.L1 scenario1 heavy = Some r /\
            r = - matched_sum L1_term scenario1 heavy / 2 /\
            0 <= r /\ r <= total scenario1 /\ r <= total heavy /\
            (total scenario1 <= 1 \/ total heavy <= 1 -> 0 <= r <= 1).
Proof.
  exact (L1_score_range scenario1_valid heavy_valid).
Defined.

(** *** L2 computes what L1 computes *)

(** C5: for vectors a, b that satisfy the Sparse Vector invariant, the L2
    score is the L1 score, in exact arithmetic, whatever the order in which
    the parallel [for_each] visits the entries of [a]. *)
Theorem L2_score_is_L1_score a b :
  valid a -> valid b ->
  Exact.L1 a b = Some (Exact.L2 a b) /\
  forall order, Permutation a order ->
    Exact.L1 a b = Some (Exact.L2_in_order order b).
Proof.
  intros [Ha _] [Hb _].
  assert (H : forall order, Permutation a order ->
            Exact.L1 a b = Some (Exact.L2_in_order order b)).
  { intros order Hp.
    rewrite L1_closed, L2_in_order_closed, (matched_sum_lookup _ Ha Hb).
    now rewrite (lookup_sum_perm _ _ Hp). }
  split; [|exact H]. apply (H a). apply Permutation_refl.
Qed.

Lemma L2_score_is_L1_score_witness :
  Exact.L1 scenario1 scenario3 = Some (Exact.L2 scenario1 scenario3) /\
  forall order, Permutation scenario1 order ->
    Exact.L1 scenario1 scenario3 = Some (Exact.L2_in_order order scenario3).
Proof.
  exact (L2_score_is_L1_score scenario1_valid scenario3_valid).
Defined.

(** *** Self-similarity *)

(** C6 (corrected): in exact arithmetic, for a non-empty vector a that
    satisfies the Sparse Vector invariant, the Bhattacharyya score of a
    against itself is the sum of its weights, no valid b of the same total
    weight scores higher against a, and the Chi-square score of a against
    itself is the sum of its weights.  (The proof does not use that a is not
    empty.) *)
Theorem self_similarity a :
  valid a -> a <> [] ->
  Exact.Bhattacharyya a a = Some (total a) /\
  (forall b, valid b -> total b = total a ->
     exists r, Exact.Bhattacharyya a b = Some r /\ r <= total a) /\
  Exact.ChiSquare a a = Some (total a).
Proof.
  intros [Ha Hn] _. repeat split.
  - rewrite Bhattacharyya_closed, matched_sum_self by assumption.
    f_equal. apply (Rsum_map_ext_nonneg (fun v => bhattacharyya_term v v));
      [apply bhattacharyya_term_self | assumption].
  - intros b [Hb Hnb] Ht.
    exists (matched_sum bhattacharyya_term a b).
    split; [now apply Bhattacharyya_closed|].
    pose proof (@matched_sum_upper bhattacharyya_term (/ 2) (/ 2) a b
                  ltac:(lra) ltac:(lra)) as Hub.
    assert (Hterm : forall v w, 0 <= v -> 0 <= w ->
              bhattacharyya_term v w <= / 2 * v + / 2 * w).
    { intros v w Hv Hw. pose proof (bhattacharyya_term_le Hv Hw). lra. }
    specialize (Hub Hterm Hn Hnb). lra.
  - rewrite ChiSquare_closed, matched_sum_self by assumption.
    f_equal.
    rewrite (map_ext _ (fun p => snd p / 2))
      by (intros; apply chi_term_self).
    rewrite Rsum_map_half. lra.
Qed.

Lemma self_similarity_witness :
  Exact.Bhattacharyya scenario1 scenario1 = Some (total scenario1) /\
  (forall b, valid b -> total b = total scenario1 ->
     exists r, Exact.Bhattacharyya scenario1 b = Some r /\
               r <= total scenario1) /\
  Exact.ChiSquare scenario1 scenario1 = Some (total scenario1).
Proof.
  apply (self_similarity scenario1_valid). discriminate.
Defined.
(** *** Symmetry *)

Lemma same_score_refl r x y : x = Some r -> y = Some r -> same_score x y.
Proof. intros -> ->. now exists r. Qed.

(** C7: for vectors a, b that satisfy the Sparse Vector invariant, the L1,
    Chi-square, Bhattacharyya and dot-product scores of (a,b) and of (b,a)
    are equal in exact arithmetic; the Kullback-Leibler score is not
    symmetric: it differs on some valid pair. *)
Theorem symmetry a b :
  valid a -> valid b ->
  same_score (Exact.L1 a b) (Exact.L1 b a) /\
  same_score (Exact.ChiSquare a b) (Exact.ChiSquare b a) /\
  same_score (Exact.Bhattacharyya a b) (Exact.Bhattacharyya b a) /\
  same_score (Exact.DotProduct a b) (Exact.DotProduct b a) /\
  (exists a' b' x y, valid a' /\ valid b' /\
     Exact.KL a' b' = Some x /\ Exact.KL b' a' = Some y /\ x <> y).
Proof.
  intros [Ha _] [Hb _]. repeat split.
  - eapply same_score_refl; [apply L1_closed|].
    rewrite L1_closed, (matched_sum_sym L1_term b a L1_term_sym).
    reflexivity.
  - eapply same_score_refl; [now apply ChiSquare_closed|].
    rewrite ChiSquare_closed, (matched_sum_sym chi_term b a chi_term_sym)
      by assumption. reflexivity.
  - eapply same_score_refl; [now apply Bhattacharyya_closed|].
    rewrite Bhattacharyya_closed,
      (matched_sum_sym bhattacharyya_term b a bhattacharyya_term_sym)
      by assumption. reflexivity.
  - eapply same_score_refl; [now apply DotProduct_closed|].
    rewrite DotProduct_closed, (matched_sum_sym Rmult b a Rmult_comm)
      by assumption. reflexivity.
  - exists scenario3, [], (1 / 2 * (ln (1 / 2) - LOG_EPS)), 0.
    pose proof scenario3_valid as H3. destruct (H3) as [H3a _].
    split; [exact H3|]. split; [exact valid_nil|].
    split; [|split].
    + rewrite KL_closed by constructor.
      rewrite KL_merge_nil_r, KL_rest_sum. unfold scenario3.
      rewrite KL_tail_sum_cons, wv_ne_true by lra.
      unfold KL_tail_sum, KL_only_term. simpl. f_equal. lra.
    + rewrite KL_closed by assumption. now rewrite KL_merge_nil_l.
    + pose proof LOG_EPS_lt_ln_half. lra.
Qed.

Lemma symmetry_witness :
  same_score (Exact.L1 scenario1 scenario3) (Exact.L1 scenario3 scenario1) /\
  same_score (Exact.ChiSquare scenario1 scenario3)
             (Exact.ChiSquare scenario3 scenario1) /\
  same_score (Exact.Bhattacharyya scenario1 scenario3)
             (Exact.Bhattacharyya scenario3 scenario1) /\
  same_score (Exact.DotProduct scenario1 scenario3)
             (Exact.DotProduct scenario3 scenario1) /\
  (exists a' b' x y, valid a' /\ valid b' /\
     Exact.KL a' b' = Some x /\ Exact.KL b' a' = Some y /\ x <> y).
Proof.
  exact (symmetry scenario1_valid scenario3_valid).
Defined.

(** *** Empty vectors *)

Lemma L2_in_order_nil_r order : Exact.L2_in_order order [] = 0.
Proof. rewrite L2_in_order_closed, lookup_sum_nil_r. lra. Qed.

(** C8: for a vector a that satisfies the Sparse Vector invariant, the L1,
    L2, Chi-square, Bhattacharyya and dot-product scores of a against the
    empty vector are 0, in either argument position; the Kullback-Leibler
    score of a against the empty vector is the sum of vi*(ln vi - LOG_EPS)
    over the non-zero weights vi of a; for a = {1: 0.5} it is
    0.5*(ln 0.5 - LOG_EPS). *)
Theorem empty_vector_scores a :
  valid a ->
  Exact.L1 a [] = Some 0 /\ Exact.L1 [] a = Some 0 /\
  Exact.L2 a [] = 0 /\ Exact.L2 [] a = 0 /\
  Exact.ChiSquare a [] = Some 0 /\ Exact.ChiSquare [] a = Some 0 /\
  Exact.Bhattacharyya a [] = Some 0 /\ Exact.Bhattacharyya [] a = Some 0 /\
  Exact.DotProduct a [] = Some 0 /\ Exact.DotProduct [] a = Some 0 /\
  Exact.KL a [] = Some (KL_tail_sum a) /\
  Exact.KL scenario3 [] = Some (1 / 2 * (ln (1 / 2) - LOG_EPS)).
Proof.
  intros [Ha _]. pose proof ascending_nil as Hnil.
  assert (Hz : forall x, x = 0 -> Some x = Some 0) by (now intros x ->).
  repeat match goal with |- _ /\ _ => split end.
  - rewrite L1_closed, matched_sum_nil_r. apply Hz. lra.
  - rewrite L1_closed, matched_sum_nil_l. apply Hz. lra.
  - apply L2_in_order_nil_r.
  - unfold Exact.L2, L2Scoring_score, L2Scoring_score_in_order. simpl. lra.
  - rewrite ChiSquare_closed, matched_sum_nil_r by assumption. apply Hz. lra.
  - rewrite ChiSquare_closed, matched_sum_nil_l by assumption. apply Hz. lra.
  - rewrite Bhattacharyya_closed, matched_sum_nil_r by assumption.
    reflexivity.
  - rewrite Bhattacharyya_closed, matched_sum_nil_l by assumption.
    reflexivity.
  - rewrite DotProduct_closed, matched_sum_nil_r by assumption. reflexivity.
  - rewrite DotProduct_closed, matched_sum_nil_l by assumption. reflexivity.
  - rewrite KL_closed, KL_merge_nil_r, KL_rest_sum by assumption.
    f_equal. lra.
  - rewrite KL_closed, KL_merge_nil_r, KL_rest_sum by assumption.
    unfold scenario3. rewrite KL_tail_sum_cons, wv_ne_true by lra.
    unfold KL_tail_sum, KL_only_term. simpl. f_equal. lra.
Qed.

Lemma empty_vector_scores_witness :
  Exact.L1 scenario1 [] = Some 0 /\ Exact.L1 [] scenario1 = Some 0 /\
  Exact.L2 scenario1 [] = 0 /\ Exact.L2 [] scenario1 = 0 /\
  Exact.ChiSquare scenario1 [] = Some 0 /\
  Exact.ChiSquare [] scenario1 = Some 0 /\
  Exact.Bhattacharyya scenario1 [] = Some 0 /\
  Exact.Bhattacharyya [] scenario1 = Some 0 /\
  Exact.DotProduct scenario1 [] = Some 0 /\
  Exact.DotProduct [] scenario1 = Some 0 /\
  Exact.KL scenario1 [] = Some (KL_tail_sum scenario1) /\
  Exact.KL scenario3 [] = Some (1 / 2 * (ln (1 / 2) - LOG_EPS)).
Proof.
  exact (empty_vector_scores scenario1_valid).
Defined.

(** *** A vector against itself *)

(** C10: for a vector a that satisfies the Sparse Vector invariant, the
    Kullback-Leibler score of a against itself is 0. *)
Theorem KL_self_score a : valid a -> Exact.KL a a = Some 0.
Proof.
  intros [Ha _]. rewrite KL_closed by assumption. now rewrite KL_merge_self.
Qed.

Lemma KL_self_score_witness : Exact.KL scenario1 scenario1 = Some 0.
Proof. exact (KL_self_score scenario1_valid). Defined.
(** *** Insertion of an entry *)

Lemma insert_Forall (P : WordId * R -> Prop) k x a :
  P (k, x) -> Forall P a -> Forall P (insert k x a).
Proof.
  intros Hk. induction 1 as [|[k' y] t Hp Ht IH]; simpl.
  - now constructor.
  - destruct (k <? k')%N; [|destruct (k =? k')%N]; repeat constructor; auto.
Qed.

Lemma insert_ascending k x a : ascending a -> ascending (insert k x a).
Proof.
  induction a as [|[k' y] t IH]; intros Ha; simpl.
  - unfold ascending; simpl. repeat constructor.
  - pose proof (ascending_head Ha) as Hh.
    pose proof (ascending_tail Ha) as Ht.
    destruct (N.ltb_spec k k') as [Hlt|Hge]; [|destruct (N.eqb_spec k k')].
    + unfold ascending in *; simpl in *. constructor; [assumption|].
      constructor; [exact Hlt|]. apply Forall_map.
      eapply Forall_impl; [|exact Hh].
      intros p Hp. exact (N.lt_trans _ _ _ Hlt Hp).
    + assumption.
    + unfold ascending in *; simpl. constructor; [now apply IH|].
      apply Forall_map. apply insert_Forall; [simpl; lia | exact Hh].
Qed.

Lemma insert_nonneg k a : nonneg a -> nonneg (insert k 0 a).
Proof. intros H. apply insert_Forall; [simpl; lra | exact H]. Qed.

Lemma insert_valid k a : valid a -> valid (insert k 0 a).
Proof.
  intros [H1 H2]. split; [now apply insert_ascending | now apply insert_nonneg].
Qed.

Lemma insert_perm k x a :
  ~ In k (keys a) -> Permutation ((k, x) :: a) (insert k x a).
Proof.
  induction a as [|[k' y] t IH]; intros Hk; simpl; [reflexivity|].
  destruct (N.ltb_spec k k'); [reflexivity|].
  destruct (N.eqb_spec k k') as [->|Hne].
  - exfalso. apply Hk. now left.
  - rewrite perm_swap. apply perm_skip, IH.
    intros Hin. apply Hk. now right.
Qed.

Lemma weight_at_insert_other k x b k' :
  k' <> k -> weight_at (insert k x b) k' = weight_at b k'.
Proof.
  intros Hne. unfold weight_at.
  induction b as [|[k2 y] t IH]; simpl.
  - destruct (N.eqb_spec k k'); [congruence|reflexivity].
  - destruct (N.ltb_spec k k2); [|destruct (N.eqb_spec k k2)].
    + rewrite find_not_head by congruence. reflexivity.
    + reflexivity.
    + simpl. destruct (k2 =? k')%N; [reflexivity|exact IH].
Qed.

(** *** A zero weight at a new key: the scores over the common keys *)

Lemma lookup_sum_insert term k a b :
  (forall w, term 0 w = 0) -> ~ In k (keys a) ->
  lookup_sum term (insert k 0 a) b = lookup_sum term a b.
Proof.
  intros Hz Hk. unfold lookup_sum.
  rewrite <- (Rsum_perm (Permutation_map _ (@insert_perm k 0 a Hk))).
  simpl. unfold lookup_term at 1. simpl.
  destruct (find b k) as [|[k' w] rest]; [lra|]. rewrite Hz. lra.
Qed.

Lemma matched_sum_insert_l term k a b :
  (forall w, term 0 w = 0) -> ascending a -> ascending b ->
  ~ In k (keys a) ->
  matched_sum term (insert k 0 a) b = matched_sum term a b.
Proof.
  intros Hz Ha Hb Hk.
  rewrite !matched_sum_lookup by auto using insert_ascending.
  now apply lookup_sum_insert.
Qed.

Lemma matched_sum_insert_r term k a b :
  (forall v, term v 0 = 0) -> ascending a -> ascending b ->
  ~ In k (keys b) ->
  matched_sum term a (insert k 0 b) = matched_sum term a b.
Proof.
  intros Hz Ha Hb Hk.
  rewrite (matched_sum_swap term (insert k 0 b) a), (matched_sum_swap term b a).
  now apply matched_sum_insert_l.
Qed.

Lemma L1_term_zero_r v : L1_term v 0 = 0.
Proof. rewrite L1_term_sym. apply L1_term_zero_l. Qed.

Lemma chi_term_zero_r v : chi_term v 0 = 0.
Proof. rewrite chi_term_sym. apply chi_term_zero_l. Qed.

Lemma bhattacharyya_term_zero_r v : bhattacharyya_term v 0 = 0.
Proof. rewrite bhattacharyya_term_sym. apply bhattacharyya_term_zero_l. Qed.

Lemma L2_closed a b :
  ascending a -> ascending b ->
  Exact.L2 a b = - matched_sum L1_term a b / 2.
Proof.
  intros Ha Hb. rewrite (matched_sum_lookup _ Ha Hb).
  apply L2_in_order_closed.
Qed.
(** *** The Kullback-Leibler score, entry by entry *)

Lemma KL_only_term_zero : KL_only_term 0 = 0.
Proof. unfold KL_only_term. lra. Qed.

Lemma KL_match_term_zero_l w : KL_match_term 0 w = 0.
Proof. unfold KL_match_term. now rewrite wv_ne_false. Qed.

Lemma KL_match_term_zero_r v : KL_match_term v 0 = 0.
Proof.
  unfold KL_match_term. rewrite (wv_ne_false 0).
  now rewrite andb_false_r.
Qed.

Lemma KL_lookup_term_weight_at b p :
  KL_lookup_term b p =
  match weight_at b (fst p) with
  | Some w => KL_match_term (snd p) w
  | None => KL_only_term (snd p)
  end.
Proof.
  unfold KL_lookup_term, weight_at.
  now destruct (find b (fst p)) as [|[k w] rest].
Qed.

Lemma KL_lookup_term_skip k w t p :
  (k < fst p)%N -> KL_lookup_term ((k, w) :: t) p = KL_lookup_term t p.
Proof.
  intros H. unfold KL_lookup_term.
  rewrite find_not_head by (apply N.lt_neq, H). reflexivity.
Qed.

Lemma KL_lookup_sum_skip k w t a :
  Forall (fun p => (k < fst p)%N) a ->
  KL_lookup_sum a ((k, w) :: t) = KL_lookup_sum a t.
Proof.
  unfold KL_lookup_sum. induction 1 as [|p a Hp _ IH]; simpl; [reflexivity|].
  now rewrite IH, KL_lookup_term_skip.
Qed.

Lemma KL_lookup_sum_cons p a b :
  KL_lookup_sum (p :: a) b = KL_lookup_term b p + KL_lookup_sum a b.
Proof. reflexivity. Qed.

Lemma KL_tail_sum_lookup a : KL_tail_sum a = KL_lookup_sum a [].
Proof.
  induction a as [|[k v] t IH]; [reflexivity|].
  rewrite KL_tail_sum_cons, KL_lookup_sum_cons, IH.
  unfold KL_lookup_term. simpl find. simpl snd.
  destruct (wv_ne v 0) eqn:E; [reflexivity|].
  simpl in E. destruct (Req_dec_T v 0) as [-> |]; [|discriminate].
  now rewrite KL_only_term_zero.
Qed.

(** In exact arithmetic the Kullback-Leibler score adds one term for every
    entry of [a]: the match term when [b] has the key, the epsilon term
    when it has not. *)
Lemma KL_merge_lookup a b acc :
  ascending a -> ascending b -> KL_merge a b acc = acc + KL_lookup_sum a b.
Proof.
  revert b acc. induction a as [|[k1 v] t1 IH1]; intros b acc Ha Hb.
  - rewrite KL_merge_nil_l. unfold KL_lookup_sum. simpl. lra.
  - pose proof (ascending_tail Ha) as Ht1.
    pose proof (ascending_head Ha) as Hh1.
    induction b as [|[k2 w] t2 IH2].
    + now rewrite KL_merge_nil_r, KL_rest_sum, KL_tail_sum_lookup.
    + pose proof (ascending_tail Hb) as Ht2.
      pose proof (ascending_head Hb) as Hh2.
      rewrite KL_merge_cons_cons.
      destruct (N.eqb_spec k1 k2) as [->|Hne];
        [|destruct (N.ltb_spec k1 k2) as [Hlt|Hge]].
      * rewrite (IH1 t2 _ Ht1 Ht2), KL_upd_term, KL_lookup_sum_cons.
        rewrite KL_lookup_sum_skip by assumption.
        unfold KL_lookup_term. simpl. rewrite N.eqb_refl. lra.
      * rewrite (IH1 _ _ Ht1 Hb), KL_lookup_sum_cons.
        unfold KL_lookup_term at 1.
        replace (find ((k2, w) :: t2) (fst (k1, v)))
          with (@nil (WordId * R)).
        { unfold KL_only_term. simpl. lra. }
        symmetry. apply find_above. constructor; [exact Hlt|].
        eapply Forall_impl; [|exact Hh2].
        intros p Hp. exact (N.lt_trans _ _ _ Hlt Hp).
      * rewrite (IH2 Ht2). f_equal. symmetry. apply KL_lookup_sum_skip.
        assert (Hgt : (k2 < k1)%N) by lia.
        constructor; [exact Hgt|].
        eapply Forall_impl; [|exact Hh1].
        intros p Hp. exact (N.lt_trans _ _ _ Hgt Hp).
Qed.

Lemma KL_lookup_sum_insert_l k a b :
  ~ In k (keys a) -> KL_lookup_sum (insert k 0 a) b = KL_lookup_sum a b.
Proof.
  intros Hk. unfold KL_lookup_sum.
  rewrite <- (Rsum_perm (Permutation_map _ (@insert_perm k 0 a Hk))).
  simpl. unfold KL_lookup_term at 1. simpl.
  destruct (find b k) as [|[k' w] rest].
  - rewrite KL_only_term_zero. lra.
  - rewrite KL_match_term_zero_l. lra.
Qed.

Lemma KL_lookup_sum_insert_r k a b :
  ~ In k (keys a) -> KL_lookup_sum a (insert k 0 b) = KL_lookup_sum a b.
Proof.
  unfold KL_lookup_sum. induction a as [|[k1 v] t IH]; intros Hk;
    [reflexivity|].
  simpl map. simpl Rsum. rewrite IH by (intros Hin; apply Hk; now right).
  rewrite !KL_lookup_term_weight_at, weight_at_insert_other; [reflexivity|].
  simpl. intros ->. apply Hk. now left.
Qed.

Lemma KL_insert_l k a b :
  ascending a -> ascending b -> ~ In k (keys a) ->
  same_score (Exact.KL (insert k 0 a) b) (Exact.KL a b).
Proof.
  intros Ha Hb Hk. exists (KL_lookup_sum a b).
  rewrite !KL_closed, !KL_merge_lookup by auto using insert_ascending.
  rewrite KL_lookup_sum_insert_l by assumption.
  split; f_equal; lra.
Qed.

Lemma KL_insert_r k a b :
  ascending a -> ascending b -> ~ In k (keys a) ->
  same_score (Exact.KL a (insert k 0 b)) (Exact.KL a b).
Proof.
  intros Ha Hb Hk. exists (KL_lookup_sum a b).
  rewrite !KL_closed, !KL_merge_lookup by auto using insert_ascending.
  rewrite KL_lookup_sum_insert_r by assumption.
  split; f_equal; lra.
Qed.
(** *** A zero weight at a new key *)

(** C2, as stated, does not hold for the Kullback-Leibler score: the key 1
    is not in the empty vector b; against a = {1: 0.5} the score is
    0.5*(ln 0.5 - LOG_EPS), which is not 0, before the entry (1, 0) is
    inserted into b, and 0 after. *)
Lemma KL_zero_weight_entry_changes_score :
  valid scenario3 /\ valid [] /\ ~ In 1%N (keys (@nil (WordId * R))) /\
  Exact.KL scenario3 (insert 1%N 0 []) = Some 0 /\
  Exact.KL scenario3 [] = Some (1 / 2 * (ln (1 / 2) - LOG_EPS)) /\
  1 / 2 * (ln (1 / 2) - LOG_EPS) <> 0.
Proof.
  split; [exact scenario3_valid|]. split; [exact valid_nil|].
  split; [intros []|]. split; [|split].
  - rewrite KL_closed by (unfold ascending; simpl; repeat constructor).
    unfold scenario3. simpl insert.
    rewrite KL_merge_cons_cons, N.eqb_refl, KL_merge_nil_l, KL_upd_term.
    rewrite KL_match_term_zero_r. f_equal. lra.
  - rewrite KL_closed, KL_merge_nil_r, KL_rest_sum by constructor.
    unfold scenario3. rewrite KL_tail_sum_cons, wv_ne_true by lra.
    unfold KL_tail_sum, KL_only_term. simpl. f_equal. lra.
  - pose proof LOG_EPS_lt_ln_half. lra.
Qed.

(** C2 (corrected): for vectors a, b that satisfy the Sparse Vector
    invariant, in exact arithmetic, an entry of weight 0 inserted at a new
    key into a or into b leaves the L1, L2, Chi-square, Bhattacharyya and
    dot-product scores unchanged.  For the Kullback-Leibler score, when the
    weights of a are all non-zero: an entry of weight 0 inserted into b at a
    key that a does not have leaves the score unchanged, and so does one
    inserted into a at a key that b has or that lies above every key of
    b.  (These conditions keep every zero weight of a away from the
    logarithm of line 162, which has no guard; the statement says nothing
    about that case.) *)
Theorem zero_weight_entry a b k :
  valid a -> valid b ->
  (~ In k (keys a) ->
     same_score (Exact.L1 (insert k 0 a) b) (Exact.L1 a b) /\
     Exact.L2 (insert k 0 a) b = Exact.L2 a b /\
     same_score (Exact.ChiSquare (insert k 0 a) b) (Exact.ChiSquare a b) /\
     same_score (Exact.Bhattacharyya (insert k 0 a) b)
                (Exact.Bhattacharyya a b) /\
     same_score (Exact.DotProduct (insert k 0 a) b)
                (Exact.DotProduct a b) /\
     (positive a ->
      In k (keys b) \/ Forall (fun k' => (k' < k)%N) (keys b) ->
      same_score (Exact.KL (insert k 0 a) b) (Exact.KL a b))) /\
  (~ In k (keys b) ->
     same_score (Exact.L1 a (insert k 0 b)) (Exact.L1 a b) /\
     Exact.L2 a (insert k 0 b) = Exact.L2 a b /\
     same_score (Exact.ChiSquare a (insert k 0 b)) (Exact.ChiSquare a b) /\
     same_score (Exact.Bhattacharyya a (insert k 0 b))
                (Exact.Bhattacharyya a b) /\
     same_score (Exact.DotProduct a (insert k 0 b))
                (Exact.DotProduct a b) /\
     (positive a -> ~ In k (keys a) ->
      same_score (Exact.KL a (insert k 0 b)) (Exact.KL a b))).
Proof.
  intros [Ha _] [Hb _].
  pose proof (insert_ascending k 0 Ha) as Ha'.
  pose proof (insert_ascending k 0 Hb) as Hb'.
  split; intros Hk; repeat match goal with |- _ /\ _ => split end.
  - eapply same_score_refl; [|apply L1_closed].
    rewrite L1_closed, (@matched_sum_insert_l L1_term k a b L1_term_zero_l)
      by assumption. reflexivity.
  - rewrite !L2_closed by assumption.
    now rewrite (@matched_sum_insert_l L1_term k a b L1_term_zero_l).
  - eapply same_score_refl; [|now apply ChiSquare_closed].
    rewrite ChiSquare_closed, (@matched_sum_insert_l chi_term k a b chi_term_zero_l)
      by assumption. reflexivity.
  - eapply same_score_refl; [|now apply Bhattacharyya_closed].
    rewrite Bhattacharyya_closed,
      (@matched_sum_insert_l bhattacharyya_term k a b bhattacharyya_term_zero_l)
      by assumption. reflexivity.
  - eapply same_score_refl; [|now apply DotProduct_closed].
    rewrite DotProduct_closed, (@matched_sum_insert_l Rmult k a b Rmult_0_l)
      by assumption. reflexivity.
  - intros _ _. now apply KL_insert_l.
  - eapply same_score_refl; [|apply L1_closed].
    rewrite L1_closed, (@matched_sum_insert_r L1_term k a b L1_term_zero_r)
      by assumption. reflexivity.
  - rewrite !L2_closed by assumption.
    now rewrite (@matched_sum_insert_r L1_term k a b L1_term_zero_r).
  - eapply same_score_refl; [|now apply ChiSquare_closed].
    rewrite ChiSquare_closed, (@matched_sum_insert_r chi_term k a b chi_term_zero_r)
      by assumption. reflexivity.
  - eapply same_score_refl; [|now apply Bhattacharyya_closed].
    rewrite Bhattacharyya_closed,
      (@matched_sum_insert_r bhattacharyya_term k a b bhattacharyya_term_zero_r)
      by assumption. reflexivity.
  - eapply same_score_refl; [|now apply DotProduct_closed].
    rewrite DotProduct_closed, (@matched_sum_insert_r Rmult k a b Rmult_0_r)
      by assumption. reflexivity.
  - intros _ Hka. now apply KL_insert_r.
Qed.

Lemma scenario1_positive : positive scenario1.
Proof. unfold positive, scenario1. repeat constructor; simpl; lra. Qed.

Lemma zero_weight_entry_witness :
  same_score (Exact.L1 (insert 2%N 0 scenario1) scenario3)
             (Exact.L1 scenario1 scenario3) /\
  same_score (Exact.KL scenario1 (insert 2%N 0 scenario3))
             (Exact.KL scenario1 scenario3).
Proof.
  destruct (@zero_weight_entry scenario1 scenario3 2%N
              scenario1_valid scenario3_valid) as [Hl Hr].
  assert (H1 : ~ In 2%N (keys scenario1))
    by (simpl; intros [H|[H|[]]]; discriminate H).
  assert (H3 : ~ In 2%N (keys scenario3))
    by (simpl; intros [H|[]]; discriminate H).
  split.
  - apply (Hl H1).
  - apply (Hr H3); [exact scenario1_positive | exact H1].
Defined.
End ExactFacts.

(** ** Termination *)

Section Termination.
Context {T : Type} {ops : WordValueOps T} {lg : WordValueLog T}.
Implicit Types (a b : BowVector T) (s : merge_state T).

Lemma L2_partialScores_length b order (partialScores : list T) :
  length (fold_left (L2_visit b) order partialScores) <=
  length partialScores + length order.
Proof.
  revert partialScores.
  induction order as [|p order IH]; intros acc; simpl; [lia|].
  etransitivity; [apply IH|]. unfold L2_visit.
  destruct (find b (fst p)) as [|[k w] rest]; [lia|].
  destruct (_ || _)%bool; [rewrite length_app; simpl|]; lia.
Qed.

(** C9: for vectors a, b with ascending keys, every iteration of each of
    the five merge loops moves the cursors to positions of a and b of which
    at least one is strictly later (the number of entries not yet passed
    decreases), the loops exit within [length a + length b] iterations, and
    each of the six score functions returns.  The L2 score has no merge
    loop: it visits every entry of a once and adds up at most [length a]
    terms. *)
Theorem score_functions_terminate a b :
  ascending a -> ascending b ->
  (forall s, cursor_inv a b s -> merge_cond s = true ->
     cursor_measure (L1_body s) < cursor_measure s /\
     (cursor_inv a b (ChiSquare_body a b s) /\
      cursor_measure (ChiSquare_body a b s) < cursor_measure s) /\
     (cursor_inv a b (KL_body b s) /\
      cursor_measure (KL_body b s) < cursor_measure s) /\
     (cursor_inv a b (Bhattacharyya_body a b s) /\
      cursor_measure (Bhattacharyya_body a b s) < cursor_measure s) /\
     (cursor_inv a b (DotProduct_body a b s) /\
      cursor_measure (DotProduct_body a b s) < cursor_measure s)) /\
  (forall fuel, length a + length b < fuel ->
     (exists s, while_loop fuel merge_cond L1_body (merge_init a b)
                = Some s) /\
     (exists s, while_loop fuel merge_cond (ChiSquare_body a b)
                  (merge_init a b) = Some s) /\
     (exists s, while_loop fuel merge_cond (KL_body b) (merge_init a b)
                = Some s) /\
     (exists s, while_loop fuel merge_cond (Bhattacharyya_body a b)
                  (merge_init a b) = Some s) /\
     (exists s, while_loop fuel merge_cond (DotProduct_body a b)
                  (merge_init a b) = Some s)) /\
  (exists r, L1Scoring_score a b = Some r) /\
  length (fold_left (L2_visit b) a []) <= length a /\
  (exists r, ChiSquareScoring_score a b = Some r) /\
  (exists r, KLScoring_score a b = Some r) /\
  (exists r, BhattacharyyaScoring_score a b = Some r) /\
  (exists r, DotProductScoring_score a b = Some r).
Proof.
  intros Ha Hb.
  repeat match goal with |- _ /\ _ => split end.
  - intros s Hi Hc.
    repeat match goal with |- _ /\ _ => split end.
    + apply (L1_body_step s Hc).
    + apply (lb_body_step ChiSquare_upd Ha Hb Hi Hc).
    + apply (lb_body_step ChiSquare_upd Ha Hb Hi Hc).
    + apply (KL_body_step Hb Hi Hc).
    + apply (KL_body_step Hb Hi Hc).
    + apply (lb_body_step Bhattacharyya_upd Ha Hb Hi Hc).
    + apply (lb_body_step Bhattacharyya_upd Ha Hb Hi Hc).
    + apply (lb_body_step DotProduct_upd Ha Hb Hi Hc).
    + apply (lb_body_step DotProduct_upd Ha Hb Hi Hc).
  - intros fuel Hf.
    repeat match goal with |- _ /\ _ => split end.
    + destruct (L1_loop a b Hf) as (s & Hs & _). now exists s.
    + destruct (lb_loop ChiSquare_upd Ha Hb Hf) as (s & Hs & _). now exists s.
    + destruct (KL_loop a Hb Hf) as (s & Hs & _). now exists s.
    + destruct (lb_loop Bhattacharyya_upd Ha Hb Hf) as (s & Hs & _).
      now exists s.
    + destruct (lb_loop DotProduct_upd Ha Hb Hf) as (s & Hs & _).
      now exists s.
  - rewrite L1Scoring_score_eq. eauto.
  - apply (L2_partialScores_length b a []).
  - rewrite ChiSquareScoring_score_eq by assumption. eauto.
  - rewrite KLScoring_score_eq by assumption. eauto.
  - rewrite BhattacharyyaScoring_score_eq by assumption. eauto.
  - rewrite DotProductScoring_score_eq by assumption. eauto.
Qed.
End Termination.

Lemma Binary64_scenario1_ascending : ascending Binary64.scenario1.
Proof. unfold ascending, Binary64.scenario1; simpl. repeat constructor. Qed.

Lemma score_functions_terminate_witness :
  (exists r, Binary64.L1 Binary64.scenario1 Binary64.scenario1 = Some r) /\
  (exists r, Binary64.KL Binary64.log_pow2
               Binary64.scenario1 Binary64.scenario1 = Some r).
Proof.
  destruct (@score_functions_terminate Binary64.double Binary64.ops
              (Build_WordValueLog Binary64.log_pow2)
              Binary64.scenario1 Binary64.scenario1
              Binary64_scenario1_ascending Binary64_scenario1_ascending)
    as (_ & _ & H1 & _ & _ & H2 & _).
  split; [exact H1 | exact H2].
Defined.

(** ** Double precision *)

Section Binary64Facts.
Import Binary64.

(** In double precision the scores against an empty vector are zeros too:
    the negative zero [-0.0 / 2.0] for L1, the positive zero elsewhere. *)
Lemma Binary64_empty_vector_scores (a : BowVector double) :
  Binary64.L1 a [] = Some neg_zero /\ Binary64.L1 [] a = Some neg_zero /\
  Binary64.L2 [] a = neg_zero /\
  Binary64.ChiSquare a [] = Some pos_zero /\
  Binary64.ChiSquare [] a = Some pos_zero /\
  Binary64.Bhattacharyya a [] = Some pos_zero /\
  Binary64.Bhattacharyya [] a = Some pos_zero /\
  Binary64.DotProduct a [] = Some pos_zero /\
  Binary64.DotProduct [] a = Some pos_zero.
Proof.
  repeat match goal with |- _ /\ _ => split end;
    try reflexivity; destruct a; reflexivity.
Qed.

Lemma zero_times_log_zero (x : double) :
  SFadd prec emax pos_zero
    (SFmul prec emax pos_zero (SFsub prec emax neg_infinity x)) = nan.
Proof. destruct x as [[|]|[|]| |[|] m e]; reflexivity. Qed.

(** C3 (the code at the failing input): with a [log] that returns minus
    infinity at zero, as C requires, the Kullback-Leibler score of
    a = {1: 0.0} against b = {2: 1.0} is NaN: the divergence branch of the
    loop (line 162) takes [log] of the zero weight.  Against the empty
    vector the same weight goes through the loop of lines 174-176, whose
    guard skips it, and the score is 0. *)
Theorem KL_zero_weight_is_nan (log : double -> double) :
  log pos_zero = neg_infinity ->
  Binary64.KL log [(1%N, pos_zero)] [(2%N, one)] = Some nan /\
  Binary64.KL log [(1%N, pos_zero)] [] = Some pos_zero.
Proof.
  intros H. split.
  - unfold Binary64.KL, KLScoring_score, merge_fuel, merge_init.
    cbn -[SFadd SFmul SFsub one].
    now rewrite H, zero_times_log_zero.
  - reflexivity.
Qed.

Lemma KL_zero_weight_is_nan_witness :
  Binary64.KL log_pow2 [(1%N, pos_zero)] [(2%N, one)] = Some nan /\
  Binary64.KL log_pow2 [(1%N, pos_zero)] [] = Some pos_zero.
Proof. apply KL_zero_weight_is_nan. reflexivity. Defined.
(** *** Rounding and underflow in the scores of a vector against itself *)

(** C6, as stated, does not hold in double precision.  For a = {1: 0.1}
    the sum of the weights is 0.1, and the Chi-square score of a against
    itself is the double next above 0.1 (0.1*0.1 is rounded before the
    division).  For a = {1: 2^-600} the product of the weight with itself
    underflows to 0, so the Bhattacharyya and the Chi-square score of a
    against itself are 0, which is not the sum of the weights. *)
Lemma self_score_is_not_total_in_double :
  (ascending tenth_v /\ tenth_v <> [] /\
   Binary64.total tenth_v = tenth /\
   Binary64.ChiSquare tenth_v tenth_v = Some tenth_up /\
   SFeqb tenth_up tenth = false) /\
  (ascending tiny_v /\ tiny_v <> [] /\
   Binary64.total tiny_v = tiny /\
   Binary64.Bhattacharyya tiny_v tiny_v = Some pos_zero /\
   Binary64.ChiSquare tiny_v tiny_v = Some pos_zero /\
   SFeqb pos_zero tiny = false).
Proof.
  split; repeat match goal with |- _ /\ _ => split end;
    try (vm_compute; reflexivity); try discriminate;
    unfold ascending; simpl; repeat constructor.
Qed.

Lemma below_one_ascending : ascending below_one.
Proof. unfold ascending, below_one; simpl. repeat constructor; lia. Qed.

(** The bound of the L1 score by the total weight is a fact of exact
    arithmetic: the weights of [below_one] add up to 1 - 2^-56 (here scaled
    by 2^59), and the L1 score of the vector against itself, which adds them
    up with a rounding at every step, is 1 + 2^-52. *)
Lemma L1_score_above_total_by_rounding :
  fold_left (fun s p => (s + scaled_value 59 (snd p))%Z) below_one 0%Z
    = (2 ^ 59 - 2 ^ 3)%Z /\
  scaled_value 59 one = (2 ^ 59)%Z /\
  Binary64.L1 below_one below_one = Some (of_Z_pow2 (2 ^ 52 + 1) (-52)) /\
  scaled_value 59 (of_Z_pow2 (2 ^ 52 + 1) (-52)) = (2 ^ 59 + 2 ^ 7)%Z.
Proof. repeat split; vm_compute; reflexivity. Qed.
End Binary64Facts.

(** ** The merge join and the look-up by key *)

Section CommonKeys.
Context {T : Type} {ops : WordValueOps T} {lg : WordValueLog T}.
Local Open Scope wv_scope.
Implicit Types (a b c t : list (WordId * T)) (k : WordId).

Lemma common_cons p a b :
  common (p :: a) b =
  match find b (fst p) with
  | (_, wi) :: _ => [(snd p, wi)]
  | [] => []
  end ++ common a b.
Proof. reflexivity. Qed.

Lemma common_nil_r a : common a [] = [].
Proof. induction a as [|p a IH]; [reflexivity|]. now rewrite common_cons, IH. Qed.

Lemma common_skip k w t a :
  Forall (fun p => (k < fst p)%N) a -> common a ((k, w) :: t) = common a t.
Proof.
  induction 1 as [|p a Hp _ IH]; [reflexivity|].
  rewrite !common_cons, IH, find_not_head by (apply N.lt_neq, Hp).
  reflexivity.
Qed.

Lemma find_absent b k : ~ In k (keys b) -> find b k = [].
Proof.
  induction b as [|[k' w] t IH]; intros H; [reflexivity|].
  simpl. destruct (N.eqb_spec k' k) as [->|Hne].
  - exfalso. apply H. now left.
  - apply IH. intros Hin. apply H. now right.
Qed.

(** The two cursors of the merge meet exactly at the keys of [a] that a
    look-up finds in [b]. *)
Lemma matched_common a b :
  ascending a -> ascending b -> matched a b = common a b.
Proof.
  revert b. induction a as [|[k1 v] t1 IH1]; intros b Ha Hb.
  - now rewrite matched_nil_l.
  - pose proof (ascending_tail Ha) as Ht1.
    pose proof (ascending_head Ha) as Hh1.
    induction b as [|[k2 w] t2 IH2].
    + now rewrite matched_nil_r, common_nil_r.
    + pose proof (ascending_tail Hb) as Ht2.
      pose proof (ascending_head Hb) as Hh2.
      rewrite matched_cons_cons.
      destruct (N.eqb_spec k1 k2) as [->|Hne];
        [|destruct (N.ltb_spec k1 k2) as [Hlt|Hge]].
      * rewrite (IH1 t2 Ht1 Ht2), common_cons, common_skip by assumption.
        simpl. now rewrite N.eqb_refl.
      * rewrite (IH1 _ Ht1 Hb), common_cons.
        replace (find ((k2, w) :: t2) (fst (k1, v))) with (@nil (WordId * T));
          [reflexivity|].
        symmetry. apply find_above. constructor; [exact Hlt|].
        eapply Forall_impl; [|exact Hh2].
        intros p Hp. exact (N.lt_trans _ _ _ Hlt Hp).
      * rewrite (IH2 Ht2). symmetry. apply common_skip.
        assert (Hgt : (k2 < k1)%N) by lia.
        constructor; [exact Hgt|].
        eapply Forall_impl; [|exact Hh1].
        intros p Hp. exact (N.lt_trans _ _ _ Hgt Hp).
Qed.

Lemma common_disjoint a b :
  (forall k, In k (keys a) -> ~ In k (keys b)) -> common a b = [].
Proof.
  induction a as [|p a IH]; intros H; [reflexivity|].
  rewrite common_cons, find_absent, IH; [reflexivity| |].
  - intros k Hk. apply H. now right.
  - apply H. now left.
Qed.

(** *** The scores of the merge loops, in any arithmetic *)

(** X1: for vectors with ascending keys, in any arithmetic (double
    precision included), the L1 score is -s/2 where s adds, from 0 and in
    ascending key order, the term |vi-wi|-|vi|-|wi| of every key of a that
    a look-up finds in b. *)
Theorem L1_score_by_lookup a b :
  ascending a -> ascending b ->
  L1Scoring_score a b =
  Some (- fold_left (fun s p => s + L1_term (fst p) (snd p)) (common a b)
          wv_zero / wv_two).
Proof.
  intros Ha Hb. rewrite L1Scoring_score_eq. unfold fold_matched.
  now rewrite (matched_common Ha Hb).
Qed.

(** X3: for vectors with ascending keys, in any arithmetic, the Chi-square
    score is 2*s where s adds, from 0 and in ascending key order,
    vi*wi/(vi+wi) for every key of a that a look-up finds in b with
    vi+wi != 0: the lower-bound skips pass no such key. *)
Theorem ChiSquare_score_by_lookup a b :
  ascending a -> ascending b ->
  ChiSquareScoring_score a b =
  Some (wv_two * fold_left (fun s p => ChiSquare_upd s (fst p) (snd p))
                   (common a b) wv_zero).
Proof.
  intros Ha Hb. rewrite ChiSquareScoring_score_eq by assumption.
  unfold fold_matched. now rewrite (matched_common Ha Hb).
Qed.

(** X4: for vectors with ascending keys, in any arithmetic, the
    Bhattacharyya score adds, from 0 and in ascending key order, sqrt(vi*wi)
    for every key of a that a look-up finds in b. *)
Theorem Bhattacharyya_score_by_lookup a b :
  ascending a -> ascending b ->
  BhattacharyyaScoring_score a b =
  Some (fold_left (fun s p => s + wv_sqrt (fst p * snd p)) (common a b)
          wv_zero).
Proof.
  intros Ha Hb. rewrite BhattacharyyaScoring_score_eq by assumption.
  unfold fold_matched. now rewrite (matched_common Ha Hb).
Qed.

(** X5: for vectors with ascending keys, in any arithmetic, the dot-product
    score adds, from 0 and in ascending key order, vi*wi for every key of a
    that a look-up finds in b. *)
Theorem DotProduct_score_by_lookup a b :
  ascending a -> ascending b ->
  DotProductScoring_score a b =
  Some (fold_left (fun s p => s + fst p * snd p) (common a b) wv_zero).
Proof.
  intros Ha Hb. rewrite DotProductScoring_score_eq by assumption.
  unfold fold_matched. now rewrite (matched_common Ha Hb).
Qed.

(** *** L2 against L1, in any arithmetic *)

Lemma L2_partialScores_common b a acc :
  fold_left (L2_visit b) a acc =
  acc ++ map (fun p => L1_term (fst p) (snd p))
             (filter not_both_zero (common a b)).
Proof.
  revert acc. induction a as [|p a IH]; intros acc.
  - simpl. now rewrite app_nil_r.
  - simpl fold_left. rewrite IH, common_cons. unfold L2_visit.
    destruct (find b (fst p)) as [|[k wi] rest]; [reflexivity|].
    simpl app. simpl filter. unfold not_both_zero at 2. simpl fst. simpl snd.
    destruct ((snd p != wv_zero) || (wi != wv_zero))%bool; [|reflexivity].
    simpl map. now rewrite <- app_assoc.
Qed.

Lemma fold_left_add_map (f : T * T -> T) l acc :
  fold_left wv_add (map f l) acc = fold_left (fun s p => s + f p) l acc.
Proof.
  revert acc. induction l as [|p l IH]; intros acc; [reflexivity|].
  simpl. apply IH.
Qed.

Lemma filter_all {A} (f : A -> bool) (l : list A) :
  Forall (fun x => f x = true) l -> filter f l = l.
Proof.
  induction 1 as [|x l Hx _ IH]; [reflexivity|].
  simpl. now rewrite Hx, IH.
Qed.

(** X2: for vectors with ascending keys, in any arithmetic (double
    precision included): when no common key holds a weight equal to zero in
    both vectors, the L2 score, visiting a in iteration order, is the very
    value of the L1 score; no rounding separates them. *)
Theorem L2_score_is_L1_score_bitwise a b :
  ascending a -> ascending b ->
  Forall (fun p => not_both_zero p = true) (common a b) ->
  L1Scoring_score a b = Some (L2Scoring_score a b).
Proof.
  intros Ha Hb Hnz. rewrite L1Scoring_score_eq. unfold fold_matched.
  rewrite (matched_common Ha Hb).
  unfold L2Scoring_score, L2Scoring_score_in_order.
  rewrite L2_partialScores_common. simpl app.
  now rewrite (filter_all _ Hnz), fold_left_add_map.
Qed.

(** *** Disjoint supports *)

(** X7: for vectors with ascending keys that share no key, in any
    arithmetic, no term is added: the L1 and L2 scores are -0/2, the
    Chi-square score is 2*0, the Bhattacharyya and dot-product scores are
    0. *)
Theorem disjoint_supports_score_zero a b :
  ascending a -> ascending b ->
  (forall k, In k (keys a) -> ~ In k (keys b)) ->
  L1Scoring_score a b = Some (- wv_zero / wv_two) /\
  L2Scoring_score a b = - wv_zero / wv_two /\
  ChiSquareScoring_score a b = Some (wv_two * wv_zero) /\
  BhattacharyyaScoring_score a b = Some wv_zero /\
  DotProductScoring_score a b = Some wv_zero.
Proof.
  intros Ha Hb Hd. pose proof (common_disjoint a b Hd) as Hc.
  repeat match goal with |- _ /\ _ => split end.
  - rewrite L1Scoring_score_eq. unfold fold_matched.
    now rewrite (matched_common Ha Hb), Hc.
  - unfold L2Scoring_score, L2Scoring_score_in_order.
    now rewrite L2_partialScores_common, Hc.
  - rewrite ChiSquareScoring_score_eq by assumption. unfold fold_matched.
    now rewrite (matched_common Ha Hb), Hc.
  - rewrite BhattacharyyaScoring_score_eq by assumption. unfold fold_matched.
    now rewrite (matched_common Ha Hb), Hc.
  - rewrite DotProductScoring_score_eq by assumption. unfold fold_matched.
    now rewrite (matched_common Ha Hb), Hc.
Qed.

(** *** The Kullback-Leibler score, entry by entry, in any arithmetic *)

Lemma has_key_above_skip k2 w t2 k :
  (k2 < k)%N -> has_key_above ((k2, w) :: t2) k = has_key_above t2 k.
Proof.
  intros H. unfold has_key_above. simpl.
  destruct (N.ltb_spec k k2); [lia|reflexivity].
Qed.

Lemma KL_entry_skip k2 w t2 s p :
  (k2 < fst p)%N -> KL_entry ((k2, w) :: t2) s p = KL_entry t2 s p.
Proof.
  intros H. unfold KL_entry.
  now rewrite find_not_head, has_key_above_skip by (try apply N.lt_neq; exact H).
Qed.

Lemma KL_entries_skip k2 w t2 a s :
  Forall (fun p => (k2 < fst p)%N) a ->
  fold_left (KL_entry ((k2, w) :: t2)) a s = fold_left (KL_entry t2) a s.
Proof.
  intros H. revert s. induction H as [|p a Hp _ IH]; intros s; [reflexivity|].
  simpl. now rewrite IH, KL_entry_skip.
Qed.

Lemma KL_rest_entries a s : KL_rest a s = fold_left (KL_entry []) a s.
Proof.
  revert s. induction a as [|[k v] t IH]; intros s; [reflexivity|].
  simpl KL_rest. rewrite IH. reflexivity.
Qed.

Lemma KL_merge_entries a b s :
  ascending a -> ascending b -> KL_merge a b s = fold_left (KL_entry b) a s.
Proof.
  revert b s. induction a as [|[k1 v] t1 IH1]; intros b s Ha Hb.
  - now rewrite KL_merge_nil_l.
  - pose proof (ascending_tail Ha) as Ht1.
    pose proof (ascending_head Ha) as Hh1.
    induction b as [|[k2 w] t2 IH2].
    + now rewrite KL_merge_nil_r, KL_rest_entries.
    + pose proof (ascending_tail Hb) as Ht2.
      pose proof (ascending_head Hb) as Hh2.
      rewrite KL_merge_cons_cons.
      destruct (N.eqb_spec k1 k2) as [->|Hne];
        [|destruct (N.ltb_spec k1 k2) as [Hlt|Hge]].
      * rewrite (IH1 t2 _ Ht1 Ht2). simpl fold_left.
        rewrite KL_entries_skip by assumption.
        f_equal. unfold KL_entry. simpl. now rewrite N.eqb_refl.
      * rewrite (IH1 _ _ Ht1 Hb). simpl fold_left. f_equal.
        unfold KL_entry.
        replace (find ((k2, w) :: t2) (fst (k1, v))) with (@nil (WordId * T)).
        { unfold has_key_above. simpl.
          destruct (N.ltb_spec k1 k2); [reflexivity|lia]. }
        symmetry. apply find_above. constructor; [exact Hlt|].
        eapply Forall_impl; [|exact Hh2].
        intros p Hp. exact (N.lt_trans _ _ _ Hlt Hp).
      * rewrite (IH2 Ht2). symmetry. apply KL_entries_skip.
        assert (Hgt : (k2 < k1)%N) by lia.
        constructor; [exact Hgt|].
        eapply Forall_impl; [|exact Hh1].
        intros p Hp. exact (N.lt_trans _ _ _ Hgt Hp).
Qed.

(** X6: for vectors with ascending keys, in any arithmetic, the
    Kullback-Leibler score adds, from 0 and in the order of a, one
    contribution per entry (k, vi) of a: vi*log(vi/wi) when b has k with
    vi != 0 and wi != 0 (nothing when one of them is 0); otherwise
    vi*(log vi - LOG_EPS), which is skipped for vi = 0 only when b has no key
    above k. *)
Theorem KL_score_by_entry a b :
  ascending a -> ascending b ->
  KLScoring_score a b = Some (fold_left (KL_entry b) a wv_zero).
Proof.
  intros Ha Hb. rewrite KLScoring_score_eq by assumption.
  now rewrite KL_merge_entries.
Qed.
End CommonKeys.

(** ** The scores and the distances they stand for, in exact arithmetic *)

Section ExactDistances.
Import Exact.
Local Open Scope R_scope.
Implicit Types (a b : BowVector R) (k : WordId) (v w : R).

Lemma Rsum_map_plus {A} (f g : A -> R) (l : list A) :
  Rsum (map (fun x => f x + g x) l) = Rsum (map f l) + Rsum (map g l).
Proof. induction l as [|x l IH]; simpl; [lra|]. rewrite IH. lra. Qed.

Lemma Rsum_map_minus {A} (f g : A -> R) (l : list A) :
  Rsum (map (fun x => f x - g x) l) = Rsum (map f l) - Rsum (map g l).
Proof. induction l as [|x l IH]; simpl; [lra|]. rewrite IH. lra. Qed.

Lemma Rsum_map_ext_in {A} (f g : A -> R) (l : list A) :
  (forall x, In x l -> f x = g x) -> Rsum (map f l) = Rsum (map g l).
Proof. intros H. f_equal. now apply map_ext_in. Qed.

Lemma matched_sum_linear f g c a b :
  matched_sum (fun v w => f v w + c * g v w) a b =
  matched_sum f a b + c * matched_sum g a b.
Proof.
  unfold matched_sum. induction (matched a b) as [|p l IH]; simpl; [lra|].
  rewrite IH. lra.
Qed.

Lemma find_In a k k' w rest : find a k = (k', w) :: rest -> In (k', w) a.
Proof.
  induction a as [|[k1 v] t IH]; simpl; [discriminate|].
  destruct (k1 =? k)%N.
  - intros H. injection H as -> -> _. now left.
  - intros H. right. now apply IH.
Qed.

Lemma weight_found_nonneg b k k' w rest :
  nonneg b -> find b k = (k', w) :: rest -> 0 <= w.
Proof.
  intros Hb Hf. apply find_In in Hf.
  unfold nonneg in Hb. rewrite Forall_forall in Hb. exact (Hb _ Hf).
Qed.

(** A distance whose term is [n v + n w + c * t v w], and [n] of the one
    weight where the other is absent, is the two norms plus [c] times the sum
    of [t] over the common keys. *)
Lemma sparse_distance_common d n t c a b :
  (forall v, 0 <= v -> d v 0 = n v) ->
  (forall w, 0 <= w -> d 0 w = n w) ->
  (forall v w, 0 <= v -> 0 <= w -> d v w = n v + n w + c * t v w) ->
  valid a -> valid b ->
  sparse_distance d a b = norm n a + norm n b + c * matched_sum t a b.
Proof.
  intros Hd0 H0d Hd [Ha Hna] [Hb Hnb].
  assert (H1 : Rsum (map (fun p => d (snd p) (weight_or_zero b (fst p))) a) =
               norm n a +
               lookup_sum (fun v w => n w + c * t v w) a b).
  { unfold norm, lookup_sum. rewrite <- Rsum_map_plus.
    apply Rsum_map_ext_in. intros [k v] Hin.
    unfold nonneg in Hna. rewrite Forall_forall in Hna.
    pose proof (Hna _ Hin) as Hv. simpl in Hv.
    unfold weight_or_zero, lookup_term. simpl.
    destruct (find b k) as [|[k' w] rest] eqn:Hf.
    - rewrite Hd0 by assumption. lra.
    - rewrite Hd; [lra | assumption |].
      eapply weight_found_nonneg; eassumption. }
  assert (H2 : Rsum (map (fun q => if is_end (find a (fst q))
                                   then d 0 (snd q) else 0) b) =
               norm n b - lookup_sum (fun w v => n w) b a).
  { unfold norm, lookup_sum. rewrite <- Rsum_map_minus.
    apply Rsum_map_ext_in. intros [k w] Hin.
    unfold nonneg in Hnb. rewrite Forall_forall in Hnb.
    pose proof (Hnb _ Hin) as Hw. simpl in Hw.
    unfold lookup_term. simpl.
    destruct (find a k) as [|[k' v] rest]; simpl.
    - rewrite H0d by assumption. lra.
    - lra. }
  unfold sparse_distance. rewrite H1, H2.
  rewrite <- !matched_sum_lookup by assumption.
  rewrite (matched_sum_swap (fun w v => n w) a b), matched_sum_linear.
  lra.
Qed.

Lemma norm_id a : norm (fun v => v) a = total a.
Proof. reflexivity. Qed.

Lemma valid_ascending a : valid a -> ascending a.
Proof. now intros [H _]. Qed.

(** X9: for vectors a, b that satisfy the Sparse Vector invariant, in exact
    arithmetic, the L1 score is (|a| + |b| - |a - b|)/2, where |a| and |b|
    are the total weights and |a - b| is the L1 distance over all keys (an
    absent key has weight 0); for vectors of total weight 1 it is
    1 - |a - b|/2. *)
Theorem L1_score_is_L1_distance a b :
  valid a -> valid b ->
  Exact.L1 a b =
  Some ((total a + total b - sparse_distance L1_distance_term a b) / 2) /\
  (total a = 1 -> total b = 1 ->
   Exact.L1 a b = Some (1 - sparse_distance L1_distance_term a b / 2)).
Proof.
  intros Ha Hb.
  assert (H : sparse_distance L1_distance_term a b =
              total a + total b + 1 * matched_sum L1_term a b).
  { rewrite <- !norm_id.
    apply sparse_distance_common; try assumption;
      unfold L1_distance_term, L1_term; simpl; intros.
    - rewrite Rminus_0_r. now apply Rabs_pos_eq.
    - replace (0 - w) with (- w) by lra. rewrite Rabs_Ropp.
      now apply Rabs_pos_eq.
    - rewrite (Rabs_pos_eq v), (Rabs_pos_eq w) by assumption. lra. }
  rewrite L1_closed, H. split; [f_equal; lra|].
  intros -> ->. f_equal. lra.
Qed.

(** X10: for vectors a, b that satisfy the Sparse Vector invariant, in
    exact arithmetic, the Chi-square score is (|a| + |b| - D)/2, where D is
    the chi-square distance, the sum of (va-vb)^2/(va+vb) over all keys with
    va+vb != 0 (the identity of the comment of line 104); for vectors of
    total weight 1 it is 1 - D/2. *)
Theorem ChiSquare_score_is_chi_square_distance a b :
  valid a -> valid b ->
  Exact.ChiSquare a b =
  Some ((total a + total b -
         sparse_distance chi_square_distance_term a b) / 2) /\
  (total a = 1 -> total b = 1 ->
   Exact.ChiSquare a b =
   Some (1 - sparse_distance chi_square_distance_term a b / 2)).
Proof.
  intros Ha Hb.
  assert (H : sparse_distance chi_square_distance_term a b =
              total a + total b + (-4) * matched_sum chi_term a b).
  { rewrite <- !norm_id.
    apply sparse_distance_common; try assumption;
      unfold chi_square_distance_term, chi_term; intros.
    - destruct (Req_dec_T (v + 0) 0); [lra|]. field. lra.
    - destruct (Req_dec_T (0 + w) 0); [lra|]. field. lra.
    - destruct (Req_dec_T (v + w) 0); [lra|]. field. lra. }
  rewrite ChiSquare_closed, H by now apply valid_ascending.
  split; [f_equal; lra|]. intros -> ->. f_equal. lra.
Qed.

(** X11: for vectors a, b that satisfy the Sparse Vector invariant, in
    exact arithmetic, the Bhattacharyya score is (|a| + |b| - H)/2, where H is
    the sum of (sqrt va - sqrt vb)^2 over all keys (the squared Hellinger
    distance, up to its factor); for vectors of total weight 1 it is
    1 - H/2. *)
Theorem Bhattacharyya_score_is_hellinger_distance a b :
  valid a -> valid b ->
  Exact.Bhattacharyya a b =
  Some ((total a + total b - sparse_distance hellinger_term a b) / 2) /\
  (total a = 1 -> total b = 1 ->
   Exact.Bhattacharyya a b =
   Some (1 - sparse_distance hellinger_term a b / 2)).
Proof.
  intros Ha Hb.
  assert (H : sparse_distance hellinger_term a b =
              total a + total b + (-2) * matched_sum bhattacharyya_term a b).
  { rewrite <- !norm_id.
    apply sparse_distance_common; try assumption;
      unfold hellinger_term, bhattacharyya_term; intros.
    - rewrite sqrt_0. pose proof (sqrt_sqrt v H). lra.
    - rewrite sqrt_0. pose proof (sqrt_sqrt w H). lra.
    - pose proof (sqrt_sqrt v H). pose proof (sqrt_sqrt w H0).
      rewrite sqrt_mult by assumption. lra. }
  rewrite Bhattacharyya_closed, H by now apply valid_ascending.
  split; [f_equal; lra|]. intros -> ->. f_equal. lra.
Qed.

(** X12: for vectors a, b that satisfy the Sparse Vector invariant, in
    exact arithmetic, the dot-product score is (|a|^2 + |b|^2 - E)/2, where
    |a|^2 and |b|^2 are the sums of the squared weights and E is the squared
    Euclidean distance, the sum of (va-vb)^2 over all keys. *)
Theorem DotProduct_score_is_euclidean_distance a b :
  valid a -> valid b ->
  Exact.DotProduct a b =
  Some ((norm square a + norm square b -
         sparse_distance euclidean_term a b) / 2).
Proof.
  intros Ha Hb.
  assert (H : sparse_distance euclidean_term a b =
              norm square a + norm square b + (-2) * matched_sum Rmult a b).
  { apply sparse_distance_common; try assumption;
      unfold euclidean_term, square; intros; lra. }
  rewrite DotProduct_closed, H by now apply valid_ascending.
  f_equal; lra.
Qed.

(** *** The scores against one another *)

Lemma matched_sum_mono t1 t2 a b :
  (forall v w, 0 <= v -> 0 <= w -> t1 v w <= t2 v w) ->
  nonneg a -> nonneg b -> matched_sum t1 a b <= matched_sum t2 a b.
Proof.
  intros Ht Ha Hb.
  pose proof (@matched_sum_lower (fun v w => t2 v w + (-1) * t1 v w) a b) as H.
  rewrite matched_sum_linear in H.
  assert (0 <= matched_sum t2 a b + -1 * matched_sum t1 a b); [|lra].
  apply H; try assumption. intros v w Hv Hw. specialize (Ht v w Hv Hw). lra.
Qed.

Lemma matched_sum_scale f c a b :
  matched_sum (fun v w => c * f v w) a b = c * matched_sum f a b.
Proof.
  unfold matched_sum. induction (matched a b) as [|p l IH]; simpl; [lra|].
  rewrite IH. lra.
Qed.

Lemma matched_sum_ext_nonneg f g a b :
  (forall v w, 0 <= v -> 0 <= w -> f v w = g v w) ->
  nonneg a -> nonneg b -> matched_sum f a b = matched_sum g a b.
Proof.
  intros H Ha Hb. apply Rle_antisym; apply matched_sum_mono;
    try assumption; intros v w Hv Hw; rewrite (H v w Hv Hw); lra.
Qed.

Lemma min_le_chi_term v w : 0 <= v -> 0 <= w -> Rmin v w <= 2 * chi_term v w.
Proof.
  intros Hv Hw. unfold chi_term.
  destruct (Req_dec_T (v + w) 0) as [E|E].
  - unfold Rmin. destruct (Rle_dec v w); lra.
  - assert (Hp : 0 < v + w) by lra.
    apply Rmult_le_reg_r with (v + w); [exact Hp|].
    replace (2 * (v * w / (v + w)) * (v + w)) with (2 * (v * w))
      by (field; lra).
    unfold Rmin. destruct (Rle_dec v w); nra.
Qed.

Lemma chi_term_le_bhattacharyya v w :
  0 <= v -> 0 <= w -> 2 * chi_term v w <= bhattacharyya_term v w.
Proof.
  intros Hv Hw. unfold chi_term.
  pose proof (bhattacharyya_term_le Hv Hw) as Ham.
  unfold bhattacharyya_term in *.
  pose proof (sqrt_pos (v * w)) as Hs.
  assert (Hsq : sqrt (v * w) * sqrt (v * w) = v * w) by (apply sqrt_sqrt; nra).
  destruct (Req_dec_T (v + w) 0) as [E|E]; [lra|].
  assert (Hp : 0 < v + w) by lra.
  apply Rmult_le_reg_r with (v + w); [exact Hp|].
  replace (2 * (v * w / (v + w)) * (v + w)) with (2 * (v * w))
    by (field; lra).
  nra.
Qed.

(** X13: for vectors a, b that satisfy the Sparse Vector invariant, in
    exact arithmetic, the L1, Chi-square and Bhattacharyya scores are ordered:
    0 <= L1 <= Chi-square <= Bhattacharyya <= (|a| + |b|)/2; for vectors of
    total weight at most 1 the three lie in [0,1] (the range that the
    comment of line 125 gives). *)
Theorem scores_are_ordered a b :
  valid a -> valid b ->
  exists l c h,
    Exact.L1 a b = Some l /\ Exact.ChiSquare a b = Some c /\
    Exact.Bhattacharyya a b = Some h /\
    0 <= l /\ l <= c /\ c <= h /\ h <= (total a + total b) / 2.
Proof.
  intros [Ha Hna] [Hb Hnb].
  exists (- matched_sum L1_term a b / 2), (2 * matched_sum chi_term a b),
         (matched_sum bhattacharyya_term a b).
  split; [apply L1_closed|]. split; [now apply ChiSquare_closed|].
  split; [now apply Bhattacharyya_closed|].
  assert (E1 : - matched_sum L1_term a b / 2 = matched_sum Rmin a b).
  { rewrite (@matched_sum_ext_nonneg L1_term (fun v w => -2 * Rmin v w) a b)
      by (try assumption; intros; now apply L1_term_nonneg).
    rewrite matched_sum_scale. lra. }
  rewrite E1.
  assert (E2 : 2 * matched_sum chi_term a b =
               matched_sum (fun v w => 2 * chi_term v w) a b)
    by now rewrite matched_sum_scale.
  rewrite E2.
  repeat split.
  - apply matched_sum_lower; try assumption. intros v w Hv Hw.
    unfold Rmin. destruct (Rle_dec v w); lra.
  - apply matched_sum_mono; try assumption. apply min_le_chi_term.
  - apply matched_sum_mono; try assumption. apply chi_term_le_bhattacharyya.
  - pose proof (@matched_sum_upper bhattacharyya_term (/ 2) (/ 2) a b
                  ltac:(lra) ltac:(lra)) as Hub.
    assert (Hterm : forall v w, 0 <= v -> 0 <= w ->
              bhattacharyya_term v w <= / 2 * v + / 2 * w).
    { intros v w Hv Hw. pose proof (bhattacharyya_term_le Hv Hw). lra. }
    specialize (Hub Hterm Hna Hnb). lra.
Qed.

Lemma scores_are_ordered_witness :
  exists l c h,
    Exact.L1 scenario1 scenario3 = Some l /\
    Exact.ChiSquare scenario1 scenario3 = Some c /\
    Exact.Bhattacharyya scenario1 scenario3 = Some h /\
    0 <= l /\ l <= c /\ c <= h /\
    h <= (total scenario1 + total scenario3) / 2.
Proof. exact (scores_are_ordered scenario1_valid scenario3_valid). Defined.

Lemma matched_sum_product_bound a b :
  nonneg a -> nonneg b -> matched_sum Rmult a b <= total a * total b.
Proof.
  intros Ha. revert b.
  induction Ha as [|[k1 v] t1 Hv Ht1 IH1]; intros b Hb.
  - rewrite matched_sum_nil_l. unfold total at 1; simpl. lra.
  - pose proof (total_nonneg Ht1) as Hp1. simpl in Hv.
    induction Hb as [|[k2 w] t2 Hw Ht2 IH2].
    + rewrite matched_sum_nil_r. unfold total at 2; simpl. lra.
    + pose proof (total_nonneg Ht2) as Hp2. simpl in Hw.
      rewrite matched_sum_cons, !total_cons.
      destruct (k1 =? k2)%N; [|destruct (k1 <? k2)%N].
      * specialize (IH1 t2 Ht2). nra.
      * assert (Hb' : nonneg ((k2, w) :: t2)) by (constructor; assumption).
        specialize (IH1 _ Hb'). rewrite total_cons in IH1. nra.
      * rewrite total_cons in IH2. nra.
Qed.

(** X14: for vectors a, b that satisfy the Sparse Vector invariant, in
    exact arithmetic, the dot-product score lies between 0 and the product
    of the two total weights; for vectors of total weight at most 1 it lies
    in [0,1]. *)
Theorem DotProduct_score_range a b :
  valid a -> valid b ->
  exists r, Exact.DotProduct a b = Some r /\ 0 <= r <= total a * total b.
Proof.
  intros [Ha Hna] [Hb Hnb]. exists (matched_sum Rmult a b).
  split; [now apply DotProduct_closed|]. split.
  - apply matched_sum_lower; try assumption. intros; nra.
  - now apply matched_sum_product_bound.
Qed.

Lemma DotProduct_score_range_witness :
  exists r, Exact.DotProduct scenario1 scenario3 = Some r /\
            0 <= r <= total scenario1 * total scenario3.
Proof. exact (DotProduct_score_range scenario1_valid scenario3_valid). Defined.

Lemma L1_score_is_L1_distance_witness :
  Exact.L1 scenario1 scenario3 =
  Some ((total scenario1 + total scenario3 -
         sparse_distance L1_distance_term scenario1 scenario3) / 2).
Proof.
  exact (proj1 (L1_score_is_L1_distance scenario1_valid scenario3_valid)).
Defined.

Lemma ChiSquare_score_is_chi_square_distance_witness :
  Exact.ChiSquare scenario1 scenario3 =
  Some ((total scenario1 + total scenario3 -
         sparse_distance chi_square_distance_term scenario1 scenario3) / 2).
Proof.
  exact (proj1 (ChiSquare_score_is_chi_square_distance
                  scenario1_valid scenario3_valid)).
Defined.

Lemma Bhattacharyya_score_is_hellinger_distance_witness :
  Exact.Bhattacharyya scenario1 scenario3 =
  Some ((total scenario1 + total scenario3 -
         sparse_distance hellinger_term scenario1 scenario3) / 2).
Proof.
  exact (proj1 (Bhattacharyya_score_is_hellinger_distance
                  scenario1_valid scenario3_valid)).
Defined.

Lemma DotProduct_score_is_euclidean_distance_witness :
  Exact.DotProduct scenario1 scenario3 =
  Some ((norm square scenario1 + norm square scenario3 -
         sparse_distance euclidean_term scenario1 scenario3) / 2).
Proof.
  exact (DotProduct_score_is_euclidean_distance
           scenario1_valid scenario3_valid).
Defined.
End ExactDistances.

(** ** Double precision: the look-up forms and the unguarded logarithm *)

Section Binary64Lookup.
Import Binary64.

Lemma scenario2_ascending : ascending scenario2_a /\ ascending scenario2_b.
Proof. split; unfold ascending; simpl; repeat constructor. Qed.

Lemma zero_at_3_ascending : ascending zero_at_3.
Proof. unfold ascending, zero_at_3; simpl. repeat constructor; lia. Qed.

Lemma L1_score_by_lookup_witness :
  Binary64.L1 scenario1 scenario1 =
  Some (wv_div
          (wv_neg (fold_left (fun s p => wv_add s (L1_term (fst p) (snd p)))
                     (common scenario1 scenario1) wv_zero))
          wv_two).
Proof.
  exact (L1_score_by_lookup
           Binary64_scenario1_ascending Binary64_scenario1_ascending).
Defined.

Lemma ChiSquare_score_by_lookup_witness :
  Binary64.ChiSquare scenario1 scenario1 =
  Some (wv_mul wv_two
          (fold_left (fun s p => ChiSquare_upd s (fst p) (snd p))
             (common scenario1 scenario1) wv_zero)).
Proof.
  exact (ChiSquare_score_by_lookup
           Binary64_scenario1_ascending Binary64_scenario1_ascending).
Defined.

Lemma Bhattacharyya_score_by_lookup_witness :
  Binary64.Bhattacharyya scenario1 scenario1 =
  Some (fold_left (fun s p => wv_add s (wv_sqrt (wv_mul (fst p) (snd p))))
          (common scenario1 scenario1) wv_zero).
Proof.
  exact (Bhattacharyya_score_by_lookup
           Binary64_scenario1_ascending Binary64_scenario1_ascending).
Defined.

Lemma DotProduct_score_by_lookup_witness :
  Binary64.DotProduct scenario1 scenario1 =
  Some (fold_left (fun s p => wv_add s (wv_mul (fst p) (snd p)))
          (common scenario1 scenario1) wv_zero).
Proof.
  exact (DotProduct_score_by_lookup
           Binary64_scenario1_ascending Binary64_scenario1_ascending).
Defined.

Lemma L2_score_is_L1_score_bitwise_witness :
  Binary64.L1 scenario1 scenario1 = Some (Binary64.L2 scenario1 scenario1).
Proof.
  apply (L2_score_is_L1_score_bitwise
           Binary64_scenario1_ascending Binary64_scenario1_ascending).
  repeat constructor.
Defined.

Lemma disjoint_supports_score_zero_witness :
  Binary64.L1 scenario2_a scenario2_b = Some neg_zero /\
  Binary64.L2 scenario2_a scenario2_b = neg_zero /\
  Binary64.ChiSquare scenario2_a scenario2_b = Some pos_zero /\
  Binary64.Bhattacharyya scenario2_a scenario2_b = Some pos_zero /\
  Binary64.DotProduct scenario2_a scenario2_b = Some pos_zero.
Proof.
  assert (Hd : forall k, In k (keys scenario2_a) -> ~ In k (keys scenario2_b))
    by (simpl; intros k [<-|[]] [H|[]]; discriminate H).
  exact (disjoint_supports_score_zero
           (proj1 scenario2_ascending) (proj2 scenario2_ascending) Hd).
Defined.

Lemma KL_score_by_entry_witness :
  Binary64.KL log_pow2 scenario1 scenario2_b =
  Some (fold_left (KL_entry (lg := Build_WordValueLog log_pow2) scenario2_b)
          scenario1 wv_zero).
Proof.
  exact (KL_score_by_entry (lg := Build_WordValueLog log_pow2)
           Binary64_scenario1_ascending (proj2 scenario2_ascending)).
Defined.

(** *** The logarithm of a zero weight *)

Lemma add_nan_r (x : double) : SFadd prec emax x nan = nan.
Proof. destruct x as [[|]|[|]| |[|] m e]; reflexivity. Qed.

Lemma zero_times_log_zero_any (s x : double) :
  SFadd prec emax s
    (SFmul prec emax pos_zero (SFsub prec emax neg_infinity x)) = nan.
Proof.
  replace (SFmul prec emax pos_zero (SFsub prec emax neg_infinity x))
    with nan by (destruct x as [[|]|[|]| |[|] m e]; reflexivity).
  apply add_nan_r.
Qed.

Section WithLog.
Variable log : double -> double.
Hypothesis log_zero : log pos_zero = neg_infinity.

Let lg : WordValueLog double := Build_WordValueLog log.

Lemma KL_entry_nan b p : KL_entry (lg := lg) b nan p = nan.
Proof.
  unfold KL_entry, KL_upd.
  destruct (find b (fst p)) as [|[k w] rest].
  - destruct (has_key_above b (fst p)); [reflexivity|].
    destruct (wv_ne (snd p) wv_zero); reflexivity.
  - destruct (wv_ne (snd p) wv_zero && wv_ne w wv_zero)%bool; reflexivity.
Qed.

Lemma KL_entries_nan b a : fold_left (KL_entry (lg := lg) b) a nan = nan.
Proof.
  induction a as [|p a IH]; [reflexivity|].
  simpl. now rewrite KL_entry_nan.
Qed.

Lemma KL_entry_zero_weight b k s :
  find b k = [] -> has_key_above b k = true ->
  KL_entry (lg := lg) b s (k, pos_zero) = nan.
Proof.
  intros Hf Hk. unfold KL_entry. simpl fst. simpl snd. rewrite Hf, Hk.
  change (wv_log pos_zero) with (log pos_zero). rewrite log_zero.
  apply zero_times_log_zero_any.
Qed.

(** X8: in double precision, for any [log] that returns minus infinity at
    zero, and for vectors with ascending keys: when a stores the weight 0.0
    at a key that b does not have and that lies below some key of b, the
    Kullback-Leibler score is NaN, whatever the other entries are. *)
Theorem KL_zero_weight_below_a_key_of_b_is_nan a b k :
  ascending a -> ascending b ->
  In (k, pos_zero) a -> ~ In k (keys b) -> has_key_above b k = true ->
  Binary64.KL log a b = Some nan.
Proof.
  intros Ha Hb Hin Hk Ha'. unfold Binary64.KL.
  rewrite KLScoring_score_eq, KL_merge_entries by assumption. f_equal.
  destruct (in_split _ _ Hin) as (l1 & l2 & ->).
  rewrite fold_left_app. simpl fold_left.
  rewrite KL_entry_zero_weight by (try apply find_absent; assumption).
  apply KL_entries_nan.
Qed.
End WithLog.

Lemma KL_zero_weight_below_a_key_of_b_is_nan_witness :
  Binary64.KL log_pow2 zero_at_3 scenario2_b = Some nan.
Proof.
  apply (@KL_zero_weight_below_a_key_of_b_is_nan log_pow2 eq_refl
           zero_at_3 scenario2_b 3%N
           zero_at_3_ascending (proj2 scenario2_ascending)).
  - simpl. right. left. reflexivity.
  - simpl. intros [H|[]]. discriminate H.
  - reflexivity.
Defined.
End Binary64Lookup.

(** ** The Kullback-Leibler score on a common support *)

Section ExactKL.
Import Exact.
Local Open Scope R_scope.
Implicit Types (a b : BowVector R) (v w acc : R).

Lemma ln_le_minus_1 x : 0 < x -> ln x <= x - 1.
Proof.
  intros Hx. pose proof (exp_ineq1_le (ln x)) as H.
  rewrite exp_ln in H by assumption. lra.
Qed.

Lemma KL_match_term_lower v w : 0 < v -> 0 < w -> v - w <= KL_match_term v w.
Proof.
  intros Hv Hw. unfold KL_match_term.
  rewrite !wv_ne_true by lra. simpl.
  assert (Hq : 0 < w / v) by (apply Rdiv_lt_0_compat; assumption).
  pose proof (ln_le_minus_1 Hq) as Hl.
  replace (v / w) with (/ (w / v)) by (field; lra).
  rewrite ln_Rinv by assumption.
  assert (Hw' : v * (w / v) = w) by (field; lra).
  nra.
Qed.

Lemma KL_merge_same_keys a b acc :
  keys a = keys b -> positive a -> positive b ->
  acc + total a - total b <= KL_merge a b acc.
Proof.
  intros Hk Ha. revert b acc Hk.
  induction Ha as [|[k1 v] t1 Hv Ht1 IH]; intros b acc Hk Hb.
  - destruct b; [|discriminate]. rewrite KL_merge_nil_l.
    unfold total; simpl. lra.
  - destruct Hb as [|[k2 w] t2 Hw Ht2]; [discriminate|].
    simpl in Hk. injection Hk as -> Hk. simpl in Hv, Hw.
    rewrite KL_merge_cons_cons, N.eqb_refl, KL_upd_term, !total_cons.
    specialize (IH t2 (acc + KL_match_term v w) Hk Ht2).
    pose proof (KL_match_term_lower Hv Hw). lra.
Qed.

(** X15: for vectors a, b with ascending keys, the same keys and strictly
    positive weights, in exact arithmetic, the Kullback-Leibler score is at
    least |a| - |b|, the difference of the total weights; for vectors of
    equal total weight it is not negative. *)
Theorem KL_score_lower_bound a b :
  ascending a -> ascending b -> keys a = keys b ->
  positive a -> positive b ->
  exists r, Exact.KL a b = Some r /\ total a - total b <= r /\
            (total a = total b -> 0 <= r).
Proof.
  intros Ha Hb Hk Hpa Hpb. exists (KL_merge a b 0).
  split; [now apply KL_closed|].
  pose proof (KL_merge_same_keys 0 Hk Hpa Hpb) as H.
  split; [lra|]. intros E. lra.
Qed.

Lemma skewed_ascending : ascending skewed.
Proof. unfold ascending, skewed; simpl. repeat constructor; lia. Qed.

Lemma skewed_positive : positive skewed.
Proof. unfold positive, skewed. repeat constructor; simpl; lra. Qed.

Lemma KL_score_lower_bound_witness :
  exists r, Exact.KL scenario1 skewed = Some r /\
            total scenario1 - total skewed <= r /\
            (total scenario1 = total skewed -> 0 <= r).
Proof.
  exact (KL_score_lower_bound (proj1 scenario1_valid) skewed_ascending
           eq_refl scenario1_positive skewed_positive).
Defined.
End ExactKL.
